(** * A disk-resident hash index over a CSV record store

    Shallow embedding of the index builder ([build_index], index2.c), the
    two readers ([search_by_keyword] in index2.c and
    [search_by_title_and_update] in search_worker.c) and of the C string
    helpers they use.

    Conventions.
    - A C string is the [list ascii] of its bytes before the terminating
      NUL; a pointer that may be NULL is an [option].
    - C integers ([int], [long], [size_t]) are [Z]; every value computed
      here stays far below the width of its C type.
    - Structure sizes are those of the LP64 ABI targeted by the Makefile
      (gcc on Linux): [int] is 4 bytes, [long] is 8 bytes.
    - The record store is the list of bytes it delivers; the index file
      under construction is a header, a bucket table and an append-only
      list of entries, each addressed by its byte offset. *)

From stdpp Require Import base option list numbers strings.
From Stdlib Require Import Ascii ZArith Lia.
From Stdlib Require String.

Local Open Scope Z_scope.

(** ** Characters *)

Definition NUL : ascii := "000"%char.
Definition TAB : ascii := "009"%char.
Definition LF : ascii := "010"%char.
Definition CR : ascii := "013"%char.
Definition DQ : ascii := "034"%char.
Definition COMMA : ascii := ","%char.

Definition code (c : ascii) : Z := Z.of_N (N_of_ascii c).

(** [isspace] in the C locale: space, \t, \n, \v, \f, \r. *)
Definition isspace (c : ascii) : bool :=
  (code c =? 32) || ((9 <=? code c) && (code c <=? 13)).

(** [tolower] in the C locale. *)
Definition tolower (c : ascii) : ascii :=
  if (65 <=? code c) && (code c <=? 90)
  then ascii_of_N (N_of_ascii c + 32)
  else c.

(** The C-string view of a buffer: the bytes before the first NUL. *)
Fixpoint c_str (buf : list ascii) : list ascii :=
  match buf with
  | [] => []
  | c :: r => if Ascii.eqb c NUL then [] else c :: c_str r
  end.

Definition strlen (s : list ascii) : Z := Z.of_nat (length s).

(** ** <strings.h> *)

(** [strcasecmp]: difference of the first pair of bytes that differ after
    [tolower]; the end of a string reads as NUL. *)
Fixpoint strcasecmp (a b : list ascii) : Z :=
  match a, b with
  | [], [] => 0
  | [], d :: _ => 0 - code (tolower d)
  | c :: _, [] => code (tolower c)
  | c :: a', d :: b' =>
      if code (tolower c) =? code (tolower d)
      then strcasecmp a' b'
      else code (tolower c) - code (tolower d)
  end.

(** [strncasecmp]: the same over at most [n] bytes. *)
Fixpoint strncasecmp (a b : list ascii) (n : nat) : Z :=
  match n with
  | O => 0
  | S n' =>
      match a, b with
      | [], [] => 0
      | [], d :: _ => 0 - code (tolower d)
      | c :: _, [] => code (tolower c)
      | c :: a', d :: b' =>
          if code (tolower c) =? code (tolower d)
          then strncasecmp a' b' n'
          else code (tolower c) - code (tolower d)
      end
  end.

(** ** ci_strcasestr (index2.c and search_worker.c, same text) *)

(** The [for] loop over the positions [p] of the haystack. *)
Fixpoint ci_strcasestr_loop (p needle : list ascii) : option (list ascii) :=
  match p with
  | [] => None
  | _ :: p' =>
      if strlen p <? strlen needle then None
      else if strncasecmp p needle (length needle) =? 0 then Some p
      else ci_strcasestr_loop p' needle
  end.

Definition ci_strcasestr (haystack needle : option (list ascii))
  : option (list ascii) :=
  match haystack, needle with
  | Some h, Some n =>
      if strlen n =? 0 then Some h else ci_strcasestr_loop h n
  | _, _ => None
  end.

(** ** trim_inplace (search_worker.c) *)

Fixpoint skip_spaces (s : list ascii) : list ascii :=
  match s with
  | c :: r => if isspace c then skip_spaces r else s
  | [] => []
  end.

(** The loop [while (n > 0 && isspace(s[n-1])) s[--n] = 0], written on the
    list from its front: a byte is kept unless only spaces follow it. *)
Fixpoint strip_trailing_spaces (s : list ascii) : list ascii :=
  match s with
  | [] => []
  | c :: r =>
      match strip_trailing_spaces r with
      | [] => if isspace c then [] else [c]
      | r' => c :: r'
      end
  end.

Definition trim_inplace (s : list ascii) : list ascii :=
  strip_trailing_spaces (skip_spaces s).

(** ** limpiar_texto (index2.c) *)

Definition drop_last_if (p : ascii -> bool) (s : list ascii) : list ascii :=
  match last s with
  | Some c => if p c then take (length s - 1)%nat s else s
  | None => s
  end.

Definition limpiar_texto (s : list ascii) : list ascii :=
  match s with
  | [] => []
  | c :: r =>
      let s1 := if Ascii.eqb c DQ then r else s in
      let s2 := drop_last_if (Ascii.eqb DQ) s1 in
      strip_trailing_spaces s2
  end.

(** ** <stdio.h>: fgets on a stream of bytes *)

(** The bytes one [fgets(buf, size, f)] call consumes when [room = size-1]
    bytes fit before the terminator: up to and including the first newline. *)
Fixpoint fgets_take (room : nat) (data : list ascii) : list ascii :=
  match room, data with
  | S room', c :: rest =>
      if Ascii.eqb c LF then [c] else c :: fgets_take room' rest
  | _, _ => []
  end.

(** [fgets] returns NULL ([None]) when no byte is left. *)
Definition fgets (size : nat) (data : list ascii) : option (list ascii) :=
  match data with
  | [] => None
  | _ => Some (fgets_take (size - 1) data)
  end.

(** [fseek(f, off, SEEK_SET)] followed by [fgets]: a negative offset makes
    [fseek] fail, an offset at or past the end makes [fgets] return NULL. *)
Definition fgets_at (size : nat) (data : list ascii) (off : Z)
  : option (list ascii) :=
  if off <? 0 then None else fgets size (drop (Z.to_nat off) data).

(** ** strtok *)

Definition is_delim (delim : list ascii) (c : ascii) : bool :=
  existsb (Ascii.eqb c) delim.

Fixpoint skip_delims (delim s : list ascii) : list ascii :=
  match s with
  | c :: r => if is_delim delim c then skip_delims delim r else s
  | [] => []
  end.

(** The token starting at [s] and the saved pointer: the byte after the
    delimiter that ends the token (overwritten by NUL), or the end. *)
Fixpoint scan_token (delim s : list ascii) : list ascii * list ascii :=
  match s with
  | [] => ([], [])
  | c :: r =>
      if is_delim delim c then ([], r)
      else let '(t, rest) := scan_token delim r in (c :: t, rest)
  end.

(** One [strtok] call on the saved pointer [s]: NULL when only delimiters
    remain. *)
Definition strtok (delim s : list ascii)
  : option (list ascii * list ascii) :=
  match skip_delims delim s with
  | [] => None
  | s' => Some (scan_token delim s')
  end.

(** ** csv_get_column (search_worker.c) *)

Definition append_capped (out_sz : Z) (out : list ascii) (c : ascii)
  : list ascii :=
  if strlen out + 1 <? out_sz then out ++ [c] else out.

(** The inner loop of the quoted branch, entered after the opening quote:
    a doubled quote yields one quote, a single quote ends the field, and
    bytes beyond [out_sz - 1] are read but not stored. *)
Fixpoint quoted_field (out_sz : Z) (p out : list ascii) : list ascii :=
  match p with
  | [] => out
  | c :: r =>
      if Ascii.eqb c DQ then
        match r with
        | d :: r' =>
            if Ascii.eqb d DQ
            then quoted_field out_sz r' (append_capped out_sz out DQ)
            else out
        | [] => out
        end
      else quoted_field out_sz r (append_capped out_sz out c)
  end.

Definition ends_field (c : ascii) : bool :=
  Ascii.eqb c COMMA || Ascii.eqb c LF || Ascii.eqb c CR.

(** The loop that advances [p] to the next comma, newline, carriage return
    or end of string: the bytes skipped and the position reached. *)
Fixpoint scan_unquoted (p : list ascii) : list ascii * list ascii :=
  match p with
  | [] => ([], [])
  | c :: r =>
      if ends_field c then ([], p)
      else let '(f, rest) := scan_unquoted r in (c :: f, rest)
  end.

(** The skip loop of a quoted field that is not the target, entered after
    the opening quote: the position after the closing quote. *)
Fixpoint skip_quoted (p : list ascii) : list ascii :=
  match p with
  | [] => []
  | c :: r =>
      if Ascii.eqb c DQ then
        match r with
        | d :: r' => if Ascii.eqb d DQ then skip_quoted r' else r
        | [] => r
        end
      else skip_quoted r
  end.

(** After a skipped field: a comma is stepped over and counts a column. *)
Definition step_over_comma (col : Z) (p : list ascii) : Z * list ascii :=
  match p with
  | c :: r => if Ascii.eqb c COMMA then (col + 1, r) else (col, p)
  | [] => (col, p)
  end.

(** The outer [while] of [csv_get_column]. Every round consumes at least
    one byte of [p], so [fuel] above the length of the line is never
    exhausted ([csv_get_column_loop_fuel]). *)
Fixpoint csv_get_column_loop (fuel : nat) (target_col : Z) (out_sz : Z)
    (col : Z) (p : list ascii) : Z * list ascii :=
  match fuel with
  | O => (0, [])
  | S fuel' =>
      match p with
      | [] => (0, [])
      | c :: r =>
          if Ascii.eqb c LF || Ascii.eqb c CR then (0, [])
          else if col =? target_col then
            if Ascii.eqb c DQ
            then (1, trim_inplace (quoted_field out_sz r []))
            else
              let start := fst (scan_unquoted p) in
              let len := if out_sz <=? strlen start
                         then out_sz - 1 else strlen start in
              (1, trim_inplace (take (Z.to_nat len) start))
          else
            let '(col', p') :=
              if Ascii.eqb c DQ
              then step_over_comma col (skip_quoted r)
              else step_over_comma col (snd (scan_unquoted p)) in
            csv_get_column_loop fuel' target_col out_sz col' p'
      end
  end.

(** [csv_get_column(line, target_col, out, out_sz)]: the returned flag and
    the string left in [out]. *)
Definition csv_get_column (line : list ascii) (target_col : Z) (out_sz : Z)
  : Z * list ascii :=
  csv_get_column_loop (S (length line)) target_col out_sz 1 line.

(** ** index.h: the structures stored on disk *)

Definition N_BUCKETS : Z := 1000.
Definition KEY_SIZE : Z := 256.

Record IndexHeader := {
  n_buckets : Z;
  offset_buckets : Z;
  offset_entries : Z
}.

Record BucketDisk := { first_entry_offset : Z }.

Record EntryDisk := {
  key : list ascii;
  csv_offset : Z;
  next_entry : Z
}.

Definition sizeof_IndexHeader : Z := 24.
Definition sizeof_BucketDisk : Z := 8.
Definition sizeof_EntryDisk : Z := 272.

(** ** hash.h

    [hash_string] is declared in hash.h and defined in hash.c; the builder
    and the readers only rely on it being a function of the string into
    [unsigned long]. *)
Class Hasher := hash_string : list ascii -> N.

(** ** The index file as its readers see it

    What [fseek] to an offset followed by one [fread] of the given
    structure yields; [None] when either call fails. *)
Record IndexFile := {
  read_header : option IndexHeader;
  read_bucket : Z -> option BucketDisk;
  read_entry : Z -> option EntryDisk
}.

(** ** The index file while [build_index] writes it *)

Record IndexImage := {
  img_header : IndexHeader;
  img_buckets : list BucketDisk;
  img_entries : list EntryDisk
}.

(** The array slot that starts at byte [off] of a region that starts at
    [base] and holds elements of [size] bytes. *)
Definition slot_of (base size off : Z) : option nat :=
  if (base <=? off) && ((off - base) mod size =? 0)
  then Some (Z.to_nat ((off - base) / size))
  else None.

Definition image_entries_base (img : IndexImage) : Z :=
  sizeof_IndexHeader + sizeof_BucketDisk * Z.of_nat (length (img_buckets img)).

(** [fseek(idx, 0, SEEK_END); ftell(idx)] *)
Definition image_size (img : IndexImage) : Z :=
  image_entries_base img + sizeof_EntryDisk * Z.of_nat (length (img_entries img)).

Definition image_read_bucket (img : IndexImage) (off : Z)
  : option BucketDisk :=
  match slot_of sizeof_IndexHeader sizeof_BucketDisk off with
  | Some i => img_buckets img !! i
  | None => None
  end.

Definition image_write_bucket (img : IndexImage) (off : Z) (b : BucketDisk)
  : IndexImage :=
  match slot_of sizeof_IndexHeader sizeof_BucketDisk off with
  | Some i =>
      {| img_header := img_header img;
         img_buckets := <[i := b]> (img_buckets img);
         img_entries := img_entries img |}
  | None => img
  end.

Definition image_read_entry (img : IndexImage) (off : Z) : option EntryDisk :=
  match slot_of (image_entries_base img) sizeof_EntryDisk off with
  | Some k => img_entries img !! k
  | None => None
  end.

Definition image_append (img : IndexImage) (e : EntryDisk) : IndexImage :=
  {| img_header := img_header img;
     img_buckets := img_buckets img;
     img_entries := img_entries img ++ [e] |}.

(** The finished file, opened by a reader. *)
Definition image_file (img : IndexImage) : IndexFile :=
  {| read_header := Some (img_header img);
     read_bucket := image_read_bucket img;
     read_entry := image_read_entry img |}.

(** ** build_index (index2.c) *)

(** Outcome of each stdio call [build_index] checks: the calls made before
    the loop, and the six calls made for the line that starts at a given
    offset of the record store. *)
Record LineIO := {
  seek_bucket_ok : bool;
  read_bucket_ok : bool;
  seek_end_ok : bool;
  write_entry_ok : bool;
  seek_bucket_again_ok : bool;
  write_bucket_ok : bool
}.

Record BuildIO := {
  open_index_ok : bool;
  write_header_ok : bool;
  write_empty_ok : Z -> bool;
  line_io : Z -> LineIO
}.

Definition line_ok : LineIO :=
  {| seek_bucket_ok := true; read_bucket_ok := true; seek_end_ok := true;
     write_entry_ok := true; seek_bucket_again_ok := true;
     write_bucket_ok := true |}.

(** No stdio call on the index file fails. *)
Definition io_ok : BuildIO :=
  {| open_index_ok := true; write_header_ok := true;
     write_empty_ok := fun _ => true; line_io := fun _ => line_ok |}.

Definition key_delims : list ascii := [COMMA; LF; CR].

(** The [strtok] loop that counts [col] up to 4: [ahead] tokens are still
    to be passed before the key token. *)
Fixpoint key_token (ahead : nat) (p : list ascii) : option (list ascii) :=
  match strtok key_delims p with
  | None => None
  | Some (token, rest) =>
      match ahead with
      | O => Some token
      | S k => key_token k rest
      end
  end.

(** The lines the [while ((line_start = ftell(csv)), fgets(line, 4096, csv))]
    loop sees, each with its [line_start]. [pos] is the stream position
    and [data] the bytes left; each round consumes at least one byte, so
    [fuel] at or above the length of [data] is never exhausted. *)
Fixpoint data_lines (fuel : nat) (pos : Z) (data : list ascii)
  : list (Z * list ascii) :=
  match fuel with
  | O => []
  | S fuel' =>
      match fgets 4096 data with
      | None => []
      | Some line =>
          (pos, line)
          :: data_lines fuel' (pos + strlen line) (drop (length line) data)
      end
  end.

(** The lines read after the heading line. *)
Definition lines_after (heading data : list ascii) : list (Z * list ascii) :=
  data_lines (length data) (strlen heading) (drop (length heading) data).

(** The data lines of a record store, as the builder reads them. *)
Definition csv_records (data : list ascii) : list (Z * list ascii) :=
  match fgets 4096 data with
  | None => []
  | Some heading => lines_after heading data
  end.

Definition empty_bucket : BucketDisk := {| first_entry_offset := -1 |}.

(** The file after the header and the [N_BUCKETS] empty slots are written. *)
Definition empty_image : IndexImage :=
  {| img_header :=
       {| n_buckets := N_BUCKETS;
          offset_buckets := sizeof_IndexHeader;
          offset_entries :=
            sizeof_IndexHeader + sizeof_BucketDisk * N_BUCKETS |};
     img_buckets := replicate (Z.to_nat N_BUCKETS) empty_bucket;
     img_entries := [] |}.

Section Builder.
Context {H : Hasher}.

(** The body of the loop for the line read at [line_start]. *)
Definition index_line (io : LineIO) (line_start : Z) (line : list ascii)
    (img : IndexImage) : IndexImage :=
  match key_token 3 (c_str line) with
  | None => img
  | Some token =>
      let key := limpiar_texto token in
      let h := Z.of_N (hash_string key) mod N_BUCKETS in
      let bucket_offset := sizeof_IndexHeader + sizeof_BucketDisk * h in
      if negb (seek_bucket_ok io) then img else
      let b :=
        match (if read_bucket_ok io
               then image_read_bucket img bucket_offset else None) with
        | Some b => b
        | None => empty_bucket
        end in
      let entry :=
        {| key := take (Z.to_nat (KEY_SIZE - 1)) key;
           csv_offset := line_start;
           next_entry := first_entry_offset b |} in
      if negb (seek_end_ok io) then img else
      let new_entry_offset := image_size img in
      if negb (write_entry_ok io) then img else
      let img1 := image_append img entry in
      let b' := {| first_entry_offset := new_entry_offset |} in
      if negb (seek_bucket_again_ok io) then img1 else
      if negb (write_bucket_ok io) then img1 else
      image_write_bucket img1 bucket_offset b'
  end.

Definition index_lines (io : BuildIO) (lines : list (Z * list ascii))
    (img : IndexImage) : IndexImage :=
  foldl (fun img l => index_line (line_io io (fst l)) (fst l) (snd l) img)
        img lines.

(** [build_index(csv_path, index_path)]: the status returned and, on
    success, the index file written. [csv] is [None] when the record
    store cannot be opened, else the bytes it delivers (a read error
    ends them like the end of the file does). *)
Definition build_index (csv : option (list ascii)) (io : BuildIO)
  : Z * option IndexImage :=
  match csv with
  | None => (-1, None)
  | Some data =>
      if negb (open_index_ok io) then (-1, None)
      else if negb (write_header_ok io) then (-1, None)
      else if negb (forallb (write_empty_ok io) (seqZ 0 N_BUCKETS))
      then (-1, None)
      else
        match fgets 4096 data with
        | None => (-1, None)
        | Some heading =>
            (0, Some (index_lines io (lines_after heading data)
                                  empty_image))
        end
  end.
End Builder.

(** ** The bucket-window walk shared by the two readers

    Both readers run the same two nested loops: a [for] over the offsets of
    the window around the home bucket [h], and a [while] along the chain of
    each bucket. They differ in the loop guards, in what is done with an
    entry, and in where the bucket count comes from. *)

(** How the body of the inner loop leaves: on to the next entry, or out of
    both loops ([goto FIN], [goto FINISH_SEARCH]). *)
Inductive ctl := Continue | Finish.

Section Walk.
Context {St : Type}.
Variable idx : IndexFile.
(** The part of the loop conditions that depends on the results so far. *)
Variable guard : St -> bool.
(** The body of the inner loop after the entry is read. *)
Variable visit : EntryDisk -> St -> ctl * St.

(** [while (current != -1 && guard)]. A chain may loop in a damaged
    file: [None] when [fuel] entries were read and the loop goes on. *)
Fixpoint walk_chain (fuel : nat) (current : Z) (st : St)
  : option (ctl * St) :=
  match fuel with
  | O => None
  | S fuel' =>
      if (current =? -1) || negb (guard st) then Some (Continue, st)
      else
        match read_entry idx current with
        | None => Some (Continue, st)
        | Some entry =>
            match visit entry st with
            | (Finish, st') => Some (Finish, st')
            | (Continue, st') => walk_chain fuel' (next_entry entry) st'
            end
        end
  end.

(** [for (off = ...; off <= off_end && guard; ++off)] over the offsets
    [offs] still to do. *)
Fixpoint scan_buckets (fuel : nat) (nb h : Z) (offs : list Z) (st : St)
  : option St :=
  match offs with
  | [] => Some st
  | off :: offs' =>
      if negb (guard st) then Some st
      else
        let bucket_idx := h + off in
        if (bucket_idx <? 0) || (nb <=? bucket_idx)
        then scan_buckets fuel nb h offs' st
        else
          let bucket_offset :=
            sizeof_IndexHeader + sizeof_BucketDisk * bucket_idx in
          match read_bucket idx bucket_offset with
          | None => scan_buckets fuel nb h offs' st
          | Some b =>
              match walk_chain fuel (first_entry_offset b) st with
              | None => None
              | Some (Finish, st') => Some st'
              | Some (Continue, st') => scan_buckets fuel nb h offs' st'
              end
          end
  end.
End Walk.

(** The offsets [lo, lo+1, ..., hi] of a [for] loop. *)
Definition offsets (lo hi : Z) : list Z := seqZ lo (hi - lo + 1).

(** ** search_by_keyword (index2.c) *)

Definition RANGE : Z := 12.

(** What the search has done so far: the counter and the lines printed. *)
Record Printed := {
  kw_found : Z;
  kw_lines : list (list ascii)
}.

(** The search either returns early, before any lookup, or reaches [FIN]. *)
Inductive kw_result :=
| KwReturned
| KwFin (out : Printed).

Definition kw_match (keyword : list ascii) (exact : bool) (entry : EntryDisk)
  : bool :=
  if exact then strcasecmp (key entry) keyword =? 0
  else bool_decide (is_Some (ci_strcasestr (Some (key entry)) (Some keyword))).

Definition kw_visit (keyword : list ascii) (exact : bool) (csv : list ascii)
    (entry : EntryDisk) (st : Printed) : ctl * Printed :=
  if kw_match keyword exact entry then
    let found := kw_found st + 1 in
    let lines :=
      match fgets_at 4096 csv (csv_offset entry) with
      | Some line => kw_lines st ++ [c_str line]
      | None => kw_lines st
      end in
    let st' := {| kw_found := found; kw_lines := lines |} in
    if 50 <=? found then (Finish, st') else (Continue, st')
  else (Continue, st).

Section Keyword.
Context {H : Hasher}.

(** The two loops, once both files are open. *)
Definition kw_scan (fuel : nat) (keyword : list ascii) (exact : bool)
    (idx : IndexFile) (csv : list ascii) : option Printed :=
  let h := Z.of_N (hash_string keyword) mod N_BUCKETS in
  let offset_start := if exact then 0 else - RANGE in
  let offset_end := if exact then 0 else RANGE in
  scan_buckets idx (fun _ => true) (kw_visit keyword exact csv)
               fuel N_BUCKETS h (offsets offset_start offset_end)
               {| kw_found := 0; kw_lines := [] |}.

(** [search_by_keyword(keyword, exact, index_file)]. [index_file] is
    [None] when the file does not exist yet, [csv] is the record store
    arxiv.csv, [None] when it cannot be opened. The outer [option] is
    [None] when [fuel] runs out. *)
Definition search_by_keyword (fuel : nat) (keyword : option (list ascii))
    (exact : bool) (index_file : option IndexFile)
    (csv : option (list ascii)) (io : BuildIO) : option kw_result :=
  match keyword with
  | None => Some KwReturned
  | Some keyword =>
      let opened :=
        match index_file with
        | Some idx => Some idx
        | None =>
            match build_index csv io with
            | (0, Some img) => Some (image_file img)
            | _ => None
            end
        end in
      match opened, csv with
      | Some idx, Some data =>
          match kw_scan fuel keyword exact idx data with
          | Some out => Some (KwFin out)
          | None => None
          end
      | _, _ => Some KwReturned
      end
  end.
End Keyword.

(** ** search_by_title_and_update (search_worker.c) *)

Definition MAX_LINE : Z := 8192.
Definition MAX_RESULTS : Z := 50.
Definition BUCKET_RANGE : Z := 12.

(** The results so far: the counter, the bytes used in [resp_buf], and the
    lines appended to it, in order. *)
Record Collected := {
  found : Z;
  used : Z;
  appended : list (list ascii)
}.

(** The bytes of [resp_buf] before its terminating NUL. *)
Definition resp_buf (st : Collected) : list ascii := concat (appended st).

(** The test on the update_date column; [update_value] may be NULL. *)
Definition pass_update (update_value : option (list ascii))
    (linebuf : list ascii) : bool :=
  match update_value with
  | Some ((_ :: _) as u) =>
      let '(ok, parsed_update) := csv_get_column linebuf 12 64 in
      if ok =? 0 then false
      else if strcasecmp parsed_update u =? 0 then true else false
  | _ => true
  end.

Definition title_match (title_value : list ascii) (entry : EntryDisk) : bool :=
  bool_decide (is_Some (ci_strcasestr (Some (key entry)) (Some title_value))).

Definition worker_visit (title_value : list ascii)
    (update_value : option (list ascii)) (csv : list ascii) (resp_sz : Z)
    (entry : EntryDisk) (st : Collected) : ctl * Collected :=
  if title_match title_value entry then
    match fgets_at (Z.to_nat MAX_LINE) csv (csv_offset entry) with
    | Some raw =>
        let linebuf := c_str raw in
        if pass_update update_value linebuf then
          let line_len := strlen linebuf in
          if used st + line_len + 1 <? resp_sz then
            (Continue,
             {| found := found st + 1;
                used := used st + line_len;
                appended := appended st ++ [linebuf] |})
          else (Finish, st)
        else (Continue, st)
    | None => (Continue, st)
    end
  else (Continue, st).

Definition under_cap (st : Collected) : bool := found st <? MAX_RESULTS.

(** The bucket count the worker uses for a header it has read. *)
Definition worker_buckets (header : IndexHeader) : Z :=
  if n_buckets header <=? 0 then N_BUCKETS else n_buckets header.

Section Worker.
Context {H : Hasher}.

(** The two loops, once both files are open and the header is read. *)
Definition worker_scan (fuel : nat) (title_value : list ascii)
    (update_value : option (list ascii)) (resp_sz : Z)
    (idx : IndexFile) (header : IndexHeader) (csv : list ascii)
  : option Collected :=
  let nb := worker_buckets header in
  let h := Z.of_N (hash_string title_value) mod nb in
  scan_buckets idx under_cap
               (worker_visit title_value update_value csv resp_sz)
               fuel nb h (offsets (- BUCKET_RANGE) BUCKET_RANGE)
               {| found := 0; used := 0; appended := [] |}.

(** [search_by_title_and_update(title_value, update_value, resp_buf,
    resp_sz)] for a caller buffer of [resp_sz] bytes: the value returned
    and what the buffer holds; [resp_buf] itself is not NULL.
    [index_file] is [None] when index.bin does not exist yet. The outer
    [option] is [None] when [fuel] runs out. *)
Definition search_by_title_and_update (fuel : nat)
    (title_value update_value : option (list ascii)) (resp_sz : Z)
    (index_file : option IndexFile) (csv : option (list ascii))
    (io : BuildIO) : option (Z * Collected) :=
  let nothing := {| found := 0; used := 0; appended := [] |} in
  match title_value with
  | None => Some (-1, nothing)
  | Some title_value =>
      let opened :=
        match index_file with
        | Some idx => Some idx
        | None =>
            match build_index csv io with
            | (0, Some img) => Some (image_file img)
            | _ => None
            end
        end in
      match opened, csv with
      | Some idx, Some data =>
          match read_header idx with
          | None => Some (-1, nothing)
          | Some header =>
              match worker_scan fuel title_value update_value resp_sz
                                idx header data with
              | Some st => Some (found st, st)
              | None => None
              end
          end
      | _, _ => Some (-1, nothing)
      end
  end.
End Worker.

(** ** Chains and probe windows, as relations on the file *)

Definition bucket_offset_of (i : Z) : Z :=
  sizeof_IndexHeader + sizeof_BucketDisk * i.

(** [linked rd o l]: following [next_entry] from offset [o] reads exactly
    the entries [l] and then reaches the sentinel -1. *)
Inductive linked (rd : Z -> option EntryDisk) : Z -> list EntryDisk -> Prop :=
| linked_end : linked rd (-1) []
| linked_step o e l :
    o <> -1 -> rd o = Some e -> linked rd (next_entry e) l ->
    linked rd o (e :: l).

(** [is_chain rd o l]: the entries the inner loop of a reader meets from
    offset [o]; the chain also ends where an entry cannot be read. *)
Inductive is_chain (rd : Z -> option EntryDisk) : Z -> list EntryDisk -> Prop :=
| chain_end : is_chain rd (-1) []
| chain_unread o : o <> -1 -> rd o = None -> is_chain rd o []
| chain_step o e l :
    o <> -1 -> rd o = Some e -> is_chain rd (next_entry e) l ->
    is_chain rd o (e :: l).

(** [reachable rd o e]: entry [e] is read at offset [o] or further along
    the chain that starts there. *)
Inductive reachable (rd : Z -> option EntryDisk) : Z -> EntryDisk -> Prop :=
| reach_here o e : o <> -1 -> rd o = Some e -> reachable rd o e
| reach_next o e' e :
    o <> -1 -> rd o = Some e' -> reachable rd (next_entry e') e ->
    reachable rd o e.

(** [window idx nb h offs es]: the entries of the buckets [h + off], for
    [off] in [offs], in the order the two loops meet them. [bound] is at
    least the length of every chain of the window. *)
Inductive window (idx : IndexFile) (nb h : Z) (bound : nat)
  : list Z -> list EntryDisk -> Prop :=
| window_nil : window idx nb h bound [] []
| window_outside off offs es :
    h + off < 0 \/ nb <= h + off ->
    window idx nb h bound offs es ->
    window idx nb h bound (off :: offs) es
| window_unread off offs es :
    0 <= h + off < nb ->
    read_bucket idx (bucket_offset_of (h + off)) = None ->
    window idx nb h bound offs es ->
    window idx nb h bound (off :: offs) es
| window_chain off offs b l es :
    0 <= h + off < nb ->
    read_bucket idx (bucket_offset_of (h + off)) = Some b ->
    is_chain (read_entry idx) (first_entry_offset b) l ->
    (length l <= bound)%nat ->
    window idx nb h bound offs es ->
    window idx nb h bound (off :: offs) (l ++ es).

(** The two loops run over the entries of a window given as a list. *)
Fixpoint visit_all {St : Type} (guard : St -> bool)
    (visit : EntryDisk -> St -> ctl * St) (es : list EntryDisk) (st : St)
  : ctl * St :=
  match es with
  | [] => (Continue, st)
  | e :: es' =>
      if negb (guard st) then (Continue, st)
      else
        match visit e st with
        | (Finish, st') => (Finish, st')
        | (Continue, st') => visit_all guard visit es' st'
        end
  end.

(** The line the worker accepts for an entry, if any: the key matches, the
    record can be read back, and the update_date test passes. *)
Definition accepted_line (title_value : list ascii)
    (update_value : option (list ascii)) (csv : list ascii)
    (entry : EntryDisk) : option (list ascii) :=
  if title_match title_value entry then
    match fgets_at (Z.to_nat MAX_LINE) csv (csv_offset entry) with
    | Some raw =>
        if pass_update update_value (c_str raw) then Some (c_str raw)
        else None
    | None => None
    end
  else None.

(** A line of the record store that is the source of an entry of bucket
    [i]: the entry holds the first 255 bytes of the cleaned key token of
    the line and the offset of the line, and the cleaned key hashes to
    [i]. *)
Definition sourced `{Hasher} (lines : list (Z * list ascii)) (i : Z)
    (e : EntryDisk) : Prop :=
  exists off line token,
    (off, line) ∈ lines /\
    key_token 3 (c_str line) = Some token /\
    key e = take 255 (limpiar_texto token) /\
    csv_offset e = off /\
    Z.of_N (hash_string (limpiar_texto token)) mod N_BUCKETS = i.

(** ** Invariants and conditions used in the statements *)

(** No stdio call failed on any of [lines]. *)
Definition fault_free (io : BuildIO) (lines : list (Z * list ascii)) : Prop :=
  forall off line, (off, line) ∈ lines -> line_io io off = line_ok.

(** The chain of bucket [i], whose slot holds [b], after [lines] were
    processed: it ends, holds only entries whose source line hashes to
    [i], and holds an entry for every such line if no call failed. *)
Definition chain_ok `{Hasher} (io : BuildIO) (lines : list (Z * list ascii))
    (img : IndexImage) (i : nat) (b : BucketDisk) : Prop :=
  exists l,
    linked (image_read_entry img) (first_entry_offset b) l /\
    (length l <= length (img_entries img))%nat /\
    Forall (sourced lines (Z.of_nat i)) l /\
    (fault_free io lines ->
     forall off line token,
       (off, line) ∈ lines ->
       key_token 3 (c_str line) = Some token ->
       Z.of_N (hash_string (limpiar_texto token)) mod N_BUCKETS = Z.of_nat i ->
       exists e, e ∈ l /\ key e = take 255 (limpiar_texto token) /\
                 csv_offset e = off).

Definition chains_ok `{Hasher} (io : BuildIO) (lines : list (Z * list ascii))
    (img : IndexImage) : Prop :=
  length (img_buckets img) = Z.to_nat N_BUCKETS /\
  (forall e, e ∈ img_entries img -> exists i, sourced lines i e) /\
  forall i b, img_buckets img !! i = Some b -> chain_ok io lines img i b.

(** The conditions under which no index can be built: the record store
    cannot be opened, the index file cannot be created, its header or one
    of its [N_BUCKETS] empty slots cannot be written, or the record store
    delivers no line at all. *)
Definition build_fatal (csv : option (list ascii)) (io : BuildIO) : Prop :=
  csv = None \/ open_index_ok io = false \/ write_header_ok io = false \/
  (exists i, 0 <= i < N_BUCKETS /\ write_empty_ok io i = false) \/
  csv = Some [].

(** What holds of the worker's results at every point of the walk. *)
Definition collected_ok (update_value : option (list ascii)) (resp_sz : Z)
    (st : Collected) : Prop :=
  0 <= found st <= MAX_RESULTS /\
  found st = Z.of_nat (length (appended st)) /\
  used st = strlen (resp_buf st) /\
  used st < resp_sz /\
  Forall (fun line => pass_update update_value line = true) (appended st).

(** What holds of the keyword search's results while it goes on, and once
    it is over. *)
Definition printed_ok (limit : Z) (st : Printed) : Prop :=
  0 <= kw_found st <= limit /\
  Z.of_nat (length (kw_lines st)) <= kw_found st.

(** The counter of the worker counts the lines appended and stays within
    the cap, and every line appended was read from the record store and
    passed the update_date test, whatever the size of the buffer. *)
Definition capped (update_value : option (list ascii)) (csv : list ascii)
    (st : Collected) : Prop :=
  0 <= found st <= MAX_RESULTS /\
  found st = Z.of_nat (length (appended st)) /\
  Forall (fun line =>
            pass_update update_value line = true /\
            exists off raw,
              fgets_at (Z.to_nat MAX_LINE) csv off = Some raw /\
              line = c_str raw)
         (appended st).

(** ** Concrete inputs *)

Definition str (x : String.string) : list ascii :=
  String.list_ascii_of_string x.

(** Modelled from the spec: hash.c, which defines [hash_string], is not
    among the sources, and the design asks only for a deterministic string
    hash into non-negative integers. Bernstein's hash over [unsigned long]
    is one such function; it is used to run the code on concrete inputs,
    never in a general statement. *)
Definition djb2 : Hasher :=
  fun k =>
    Z.to_N (fold_left (fun h c => (h * 33 + code c) mod 2 ^ 64) k 5381).

Definition sample_heading : list ascii :=
  str "id,submitter,authors,title,comments,journal,doi,abstract,report,categories,versions,update_date"
  ++ [LF].

Definition sample_line_1 : list ascii :=
  str "1,ann,A. Author,Deep Learning Basics,c,j,d,abs,r,cs.LG,v1,2020-01-01"
  ++ [LF].

Definition sample_line_2 : list ascii :=
  str "2,bob,B. Author,deep space research,c,j,d,abs,r,astro,v1,2021-05-05"
  ++ [LF].

(** A line with three tokens only. *)
Definition sample_line_3 : list ascii := str "3,cat,C" ++ [LF].

Definition sample_line_4 : list ascii :=
  str "4,dan,D. Author,Deep Learning Basics,c,j,d,abs,r,cs.NE,v2,2022-02-02"
  ++ [LF].

Definition sample_csv : list ascii :=
  sample_heading ++ sample_line_1 ++ sample_line_2 ++ sample_line_3
  ++ sample_line_4.

Definition sample_index : IndexImage :=
  index_lines (H := djb2) io_ok (csv_records sample_csv) empty_image.

(** A key of 256 bytes, one more than an entry stores. *)
Definition long_key : list ascii := repeat "a"%char 256.

Definition long_key_line : list ascii :=
  str "1,a,b," ++ long_key ++ str ",x" ++ [LF].

Definition long_key_csv : list ascii :=
  str "id,a,b,title,x" ++ [LF] ++ long_key_line.



(** Three records with the key deep, each 912 bytes long. *)
Definition wide_line (id : list ascii) : list ascii :=
  id ++ str ",a,b,deep," ++ repeat "x"%char 900 ++ [LF].

Definition wide_csv : list ascii :=
  str "id,a,b,title,x" ++ [LF]
  ++ wide_line (str "1") ++ wide_line (str "2") ++ wide_line (str "3").

(** The read of the bucket slot fails, every other call succeeds. *)
Definition read_fails : LineIO :=
  {| seek_bucket_ok := true; read_bucket_ok := false; seek_end_ok := true;
     write_entry_ok := true; seek_bucket_again_ok := true;
     write_bucket_ok := true |}.

Definition io_read_fails_at (line_start : Z) : BuildIO :=
  {| open_index_ok := true; write_header_ok := true;
     write_empty_ok := fun _ => true;
     line_io := fun off => if off =? line_start then read_fails else line_ok |}.


(** Records whose second field is quoted and holds a comma, whose fourth
    field holds doubled quotes, and whose second field is empty. *)
Definition quoted_authors_line : list ascii :=
  str "0704.0001," ++ [DQ] ++ str "Smith, J." ++ [DQ]
  ++ str ",math.CO,Graph Theory,2007-05-23" ++ [LF].

Definition doubled_quotes_line : list ascii :=
  str "0704.0002,ann,math.CO," ++ [DQ] ++ str "say " ++ [DQ; DQ] ++ str "hi"
  ++ [DQ; DQ; DQ] ++ str ",2007-05-23" ++ [LF].

Definition empty_field_line : list ascii :=
  str "0704.0003,,math.CO,Graph Theory,2007-05-23" ++ [LF].

(** The key the builder stores for a line. *)
Definition builder_key (line : list ascii) : option (list ascii) :=
  limpiar_texto <$> key_token 3 (c_str line).

(** The index files the builder writes for these record stores. *)
Definition long_key_index : IndexImage :=
  index_lines (H := djb2) io_ok (csv_records long_key_csv) empty_image.


Definition read_failure_index : IndexImage :=
  index_lines (H := djb2) (io_read_fails_at 241) (csv_records sample_csv)
              empty_image.

Definition wide_index : IndexImage :=
  index_lines (H := djb2) io_ok (csv_records wide_csv) empty_image.

Definition sample_out : Printed :=
  {| kw_found := 2; kw_lines := [sample_line_4; sample_line_1] |}.

Definition sample_2020 : Collected :=
  {| found := 1; used := 69; appended := [sample_line_1] |}.

(** Three records match and are accepted; the 2048-byte buffer takes two
    of them, and the third would need bytes 1824 to 2735 and one more. *)
Definition wide_results : Collected :=
  {| found := 2; used := 1824;
     appended := [wide_line (str "3"); wide_line (str "2")] |}.

(** * Properties *)

(** ** stdio and string helpers *)

Lemma fgets_take_prefix room data :
  data = fgets_take room data ++ drop (length (fgets_take room data)) data.
Proof.
  revert data; induction room as [|room IH]; intros [|c rest]; simpl; try done.
  destruct (Ascii.eqb c LF); simpl; [done|].
  by rewrite <- IH.
Qed.

Lemma fgets_some size data line :
  fgets size data = Some line -> data = line ++ drop (length line) data.
Proof.
  destruct data as [|c rest]; [done|]. unfold fgets. intros [= <-].
  apply fgets_take_prefix.
Qed.

Lemma fgets_nonempty size data line :
  (2 <= size)%nat -> fgets size data = Some line -> line <> [].
Proof.
  intros Hsz. destruct data as [|c rest]; [done|]. simpl.
  intros [= <-]. destruct (size - 1)%nat as [|room] eqn:E; [lia|].
  simpl. by destruct (Ascii.eqb c LF).
Qed.

Lemma fgets_none size data : fgets size data = None <-> data = [].
Proof. by destruct data. Qed.

Lemma c_str_no_nul buf : NUL ∉ c_str buf.
Proof.
  induction buf as [|c r IH]; simpl; [by apply not_elem_of_nil|].
  destruct (Ascii.eqb_spec c NUL) as [->|Hne]; [by apply not_elem_of_nil|].
  apply not_elem_of_cons; split; [congruence | done].
Qed.

Lemma strcasecmp_refl a : strcasecmp a a = 0.
Proof. induction a as [|c a IH]; simpl; [done|]. by rewrite Z.eqb_refl. Qed.

Lemma code_inj a b : code a = code b -> a = b.
Proof.
  unfold code. intros Hab%N2Z.inj.
  by rewrite <- (ascii_N_embedding a), <- (ascii_N_embedding b), Hab.
Qed.

Lemma tolower_not_nul c : c <> NUL -> code (tolower c) <> 0.
Proof.
  destruct c as [[] [] [] [] [] [] [] []]; intros Hc; vm_compute;
    try discriminate. by destruct Hc.
Qed.

(** On strings, which hold no NUL, [strcasecmp] returns 0 exactly when the
    two strings are equal byte for byte after [tolower]. *)
Lemma strcasecmp_zero_iff a b :
  NUL ∉ a -> NUL ∉ b ->
  strcasecmp a b = 0 <-> map tolower a = map tolower b.
Proof.
  revert b; induction a as [|c a IH]; intros [|d b] Ha Hb; simpl.
  - done.
  - apply not_elem_of_cons in Hb as [Hd _].
    pose proof (tolower_not_nul d ltac:(congruence)). split; [lia | done].
  - apply not_elem_of_cons in Ha as [Hc _].
    pose proof (tolower_not_nul c ltac:(congruence)). split; [lia | done].
  - apply not_elem_of_cons in Ha as [_ Ha].
    apply not_elem_of_cons in Hb as [_ Hb].
    destruct (Z.eqb_spec (code (tolower c)) (code (tolower d))) as [Heq|Hne].
    + apply code_inj in Heq. rewrite Heq, (IH b Ha Hb).
      split; [by intros -> | by intros [= ->]].
    + split; [lia | intros [= Heq _]; by rewrite Heq in Hne].
Qed.

(** Every line of [data_lines] is what [fgets] reads back at its offset. *)
Lemma data_lines_read_back data fuel pos off line :
  0 <= pos ->
  (off, line) ∈ data_lines fuel pos (drop (Z.to_nat pos) data) ->
  pos <= off /\ fgets_at 4096 data off = Some line.
Proof.
  revert pos; induction fuel as [|fuel IH]; intros pos Hpos; simpl.
  - by intros ?%elem_of_nil.
  - destruct (fgets 4096 (drop (Z.to_nat pos) data)) as [l|] eqn:E;
      [|by intros ?%elem_of_nil].
    intros [[= -> ->]|Hin]%elem_of_cons.
    + split; [lia|]. unfold fgets_at.
      destruct (Z.ltb_spec pos 0); [lia | done].
    + rewrite drop_drop in Hin.
      replace (Z.to_nat pos + length l)%nat
        with (Z.to_nat (pos + strlen l)) in Hin by (unfold strlen; lia).
      apply IH in Hin; [|unfold strlen; lia].
      destruct Hin as [Hle Hrd]. split; [unfold strlen in Hle; lia | done].
Qed.

(** The build loop reads the whole record store: with fuel at or above the
    length of the data, the lines of [data_lines] put end to end are the
    data. *)
Lemma data_lines_cover fuel pos data :
  (length data <= fuel)%nat ->
  concat (map snd (data_lines fuel pos data)) = data.
Proof.
  revert pos data; induction fuel as [|fuel IH]; intros pos data Hlen.
  - destruct data; [done | simpl in Hlen; lia].
  - cbn [data_lines]. destruct (fgets 4096 data) as [line|] eqn:E.
    + pose proof (fgets_nonempty 4096 data line ltac:(lia) E) as Hne.
      pose proof (fgets_some 4096 data line E) as Hpre.
      cbn [map concat snd]. rewrite IH; [done|].
      rewrite length_drop.
      destruct line; [done|]. simpl. lia.
    + apply fgets_none in E as ->. done.
Qed.

Lemma csv_records_read_back data off line :
  (off, line) ∈ csv_records data -> fgets_at 4096 data off = Some line.
Proof.
  unfold csv_records, lines_after.
  destruct (fgets 4096 data) as [heading|] eqn:E; [|by intros ?%elem_of_nil].
  intros Hin.
  replace (length heading) with (Z.to_nat (strlen heading)) in Hin
    by (unfold strlen; lia).
  apply data_lines_read_back in Hin; [tauto | unfold strlen; lia].
Qed.

(** ** The walk: invariants *)

Section WalkInvariant.
Context {St : Type}.
Variable idx : IndexFile.
Variable guard : St -> bool.
Variable visit : EntryDisk -> St -> ctl * St.
(** [I] holds whenever the loops go on, [Q] when they are left. *)
Variables I Q : St -> Prop.
Hypothesis I_Q : forall st, I st -> Q st.
Hypothesis visit_continue :
  forall e st st', I st -> guard st = true ->
                   visit e st = (Continue, st') -> I st'.
Hypothesis visit_finish :
  forall e st st', I st -> guard st = true ->
                   visit e st = (Finish, st') -> Q st'.

Lemma walk_chain_invariant fuel current st c st' :
  I st -> walk_chain idx guard visit fuel current st = Some (c, st') ->
  match c with Continue => I st' | Finish => Q st' end.
Proof.
  revert current st; induction fuel as [|fuel IH]; intros current st HI;
    simpl; [done|].
  destruct (current =? -1); simpl; [by intros [= <- <-]|].
  destruct (guard st) eqn:Hg; simpl; [|by intros [= <- <-]].
  destruct (read_entry idx current) as [e|]; [|by intros [= <- <-]].
  destruct (visit e st) as [[] st1] eqn:Hv.
  - apply IH. eauto.
  - intros [= <- <-]. eauto.
Qed.

Lemma scan_buckets_invariant fuel nb h offs st st' :
  I st -> scan_buckets idx guard visit fuel nb h offs st = Some st' -> Q st'.
Proof.
  revert st; induction offs as [|off offs IH]; intros st HI; simpl.
  - intros [= <-]; auto.
  - destruct (guard st); simpl; [|intros [= <-]; auto].
    destruct ((h + off <? 0) || (nb <=? h + off)); [by apply IH|].
    destruct (read_bucket idx _) as [b|]; [|by apply IH].
    destruct (walk_chain idx guard visit fuel (first_entry_offset b) st)
      as [[[] st1]|] eqn:Hw; [| |done].
    + apply walk_chain_invariant in Hw; [|done]. by apply IH.
    + apply walk_chain_invariant in Hw; [|done]. by intros [= <-].
Qed.
End WalkInvariant.

(** ** The walk on chains that end *)

Section WalkChains.
Context {St : Type}.
Variable idx : IndexFile.
Variable guard : St -> bool.
Variable visit : EntryDisk -> St -> ctl * St.

Lemma visit_all_stopped es st :
  guard st = false -> visit_all guard visit es st = (Continue, st).
Proof. intros Hg. destruct es; simpl; [done|]. by rewrite Hg. Qed.

Lemma visit_all_app l es st :
  visit_all guard visit (l ++ es) st =
  match visit_all guard visit l st with
  | (Finish, st') => (Finish, st')
  | (Continue, st') => visit_all guard visit es st'
  end.
Proof.
  revert st; induction l as [|e l IH]; intros st; simpl; [done|].
  destruct (guard st) eqn:Hg; simpl.
  - destruct (visit e st) as [[] st1]; [apply IH | done].
  - by rewrite visit_all_stopped.
Qed.

Lemma walk_chain_is_chain fuel o l st :
  is_chain (read_entry idx) o l -> (length l < fuel)%nat ->
  walk_chain idx guard visit fuel o st = Some (visit_all guard visit l st).
Proof.
  intros Hch; revert fuel st.
  induction Hch as [|o Ho Hrd|o e l Ho Hrd Hch IH]; intros fuel st Hlen;
    (destruct fuel as [|fuel]; [simpl in Hlen; lia|]); simpl.
  - done.
  - apply Z.eqb_neq in Ho; rewrite Ho; simpl.
    destruct (guard st); simpl; [by rewrite Hrd | done].
  - apply Z.eqb_neq in Ho; rewrite Ho; simpl.
    destruct (guard st); simpl; [|done]. rewrite Hrd.
    destruct (visit e st) as [[] st1]; [|done].
    apply IH. simpl in Hlen; lia.
Qed.

Lemma scan_buckets_window fuel nb h bound offs es st :
  window idx nb h bound offs es -> (bound < fuel)%nat ->
  scan_buckets idx guard visit fuel nb h offs st =
  Some (snd (visit_all guard visit es st)).
Proof.
  intros Hw Hfuel; revert st.
  induction Hw as [|off offs es Hout Hw IH|off offs es Hin Hrd Hw IH
                   |off offs b l es Hin Hrd Hch Hlen Hw IH]; intros st; simpl.
  - done.
  - destruct (guard st) eqn:Hg; simpl;
      [|by rewrite visit_all_stopped].
    replace ((h + off <? 0) || (nb <=? h + off)) with true; [apply IH|].
    symmetry; apply orb_true_iff. destruct Hout; [left|right]; lia.
  - destruct (guard st) eqn:Hg; simpl;
      [|by rewrite visit_all_stopped].
    replace ((h + off <? 0) || (nb <=? h + off)) with false
      by (symmetry; apply orb_false_iff; lia).
    fold (bucket_offset_of (h + off)). rewrite Hrd. apply IH.
  - destruct (guard st) eqn:Hg; simpl;
      [|by rewrite visit_all_stopped].
    replace ((h + off <? 0) || (nb <=? h + off)) with false
      by (symmetry; apply orb_false_iff; lia).
    fold (bucket_offset_of (h + off)). rewrite Hrd.
    rewrite (walk_chain_is_chain fuel _ l) by (done || lia).
    rewrite visit_all_app.
    destruct (visit_all guard visit l st) as [[] st1]; [apply IH | done].
Qed.
End WalkChains.

Lemma linked_is_chain rd o l : linked rd o l -> is_chain rd o l.
Proof. induction 1; econstructor; eauto. Qed.

Lemma linked_reachable rd o l e : linked rd o l -> reachable rd o e -> e ∈ l.
Proof.
  intros Hl Hr; revert l Hl.
  induction Hr as [o e Ho Hrd|o e' e Ho Hrd Hr IH]; intros l Hl;
    inversion Hl; subst; try congruence.
  - match goal with Hx : rd o = Some _ |- _ => rewrite Hrd in Hx end.
    simplify_eq. apply elem_of_cons; by left.
  - match goal with Hx : rd o = Some _ |- _ => rewrite Hrd in Hx end.
    simplify_eq. apply elem_of_cons; right. by apply IH.
Qed.

Lemma linked_ext rd rd' o l :
  (forall o' e, rd o' = Some e -> rd' o' = Some e) ->
  linked rd o l -> linked rd' o l.
Proof. intros Hext. induction 1; econstructor; eauto. Qed.

(** ** The index file under construction *)

Lemma slot_of_nth base size n :
  0 < size -> slot_of base size (base + size * Z.of_nat n) = Some n.
Proof.
  intros Hsz. unfold slot_of.
  replace (base + size * Z.of_nat n - base) with (Z.of_nat n * size) by lia.
  rewrite Z_mod_mult, Z_div_mult by lia.
  replace (base <=? base + size * Z.of_nat n) with true
    by (symmetry; apply Z.leb_le; nia).
  simpl. by rewrite Nat2Z.id.
Qed.

Lemma slot_of_bucket h :
  0 <= h ->
  slot_of sizeof_IndexHeader sizeof_BucketDisk (bucket_offset_of h)
  = Some (Z.to_nat h).
Proof.
  intros Hh. unfold bucket_offset_of.
  rewrite <- (Z2Nat.id h) at 1 by done. by apply slot_of_nth.
Qed.

Lemma image_size_pos img : 0 < image_size img.
Proof.
  unfold image_size, image_entries_base, sizeof_IndexHeader,
    sizeof_BucketDisk, sizeof_EntryDisk. lia.
Qed.

Lemma image_read_entry_append img e' o e :
  image_read_entry img o = Some e ->
  image_read_entry (image_append img e') o = Some e.
Proof.
  unfold image_read_entry, image_append, image_entries_base; simpl.
  destruct (slot_of _ _ o) as [k|]; [|done].
  intros Hk. by apply lookup_app_l_Some.
Qed.

Lemma image_read_entry_new img e :
  image_read_entry (image_append img e) (image_size img) = Some e.
Proof.
  unfold image_read_entry, image_size.
  change (image_entries_base (image_append img e))
    with (image_entries_base img).
  rewrite slot_of_nth by done. simpl.
  by rewrite lookup_app_r, Nat.sub_diag.
Qed.

Lemma image_read_entry_write_bucket img off b o :
  image_read_entry (image_write_bucket img off b) o = image_read_entry img o.
Proof.
  unfold image_read_entry, image_write_bucket, image_entries_base.
  destruct (slot_of _ _ off); simpl; [|done]. by rewrite length_insert.
Qed.

Lemma image_read_bucket_slot img h :
  0 <= h ->
  image_read_bucket img (bucket_offset_of h) = img_buckets img !! Z.to_nat h.
Proof. intros Hh. unfold image_read_bucket. by rewrite slot_of_bucket. Qed.

Lemma image_write_bucket_slot img h b :
  0 <= h ->
  img_buckets (image_write_bucket img (bucket_offset_of h) b)
  = <[Z.to_nat h := b]> (img_buckets img).
Proof. intros Hh. unfold image_write_bucket. by rewrite slot_of_bucket. Qed.

Lemma image_write_bucket_entries img off b :
  img_entries (image_write_bucket img off b) = img_entries img.
Proof. unfold image_write_bucket. by destruct (slot_of _ _ off). Qed.

(** ** The invariant of the build loop *)

Section BuildInvariant.
Context {H : Hasher}.

Lemma sourced_more lines x i e :
  sourced lines i e -> sourced (lines ++ [x]) i e.
Proof.
  intros (off & line & token & Hin & Hrest).
  exists off, line, token. split; [|done].
  apply elem_of_app; by left.
Qed.

Lemma fault_free_less io lines x :
  fault_free io (lines ++ [x]) -> fault_free io lines.
Proof. intros Hff off line Hin. apply (Hff off line), elem_of_app; by left. Qed.

(** A bucket that the new line does not touch keeps its chain. *)
Lemma chain_ok_kept io lines off line img img' i b :
  chain_ok io lines img i b ->
  (forall o e, image_read_entry img o = Some e ->
               image_read_entry img' o = Some e) ->
  (length (img_entries img) <= length (img_entries img'))%nat ->
  (fault_free io (lines ++ [(off, line)]) ->
   forall token, key_token 3 (c_str line) = Some token ->
     Z.of_N (hash_string (limpiar_texto token)) mod N_BUCKETS
     <> Z.of_nat i) ->
  chain_ok io (lines ++ [(off, line)]) img' i b.
Proof.
  intros (l & Hl & Hlen & Hsrc & Hall) Hrd Hmore Hnew.
  exists l. repeat split.
  - by eapply linked_ext.
  - lia.
  - eapply Forall_impl; [done|]. intros e. apply sourced_more.
  - intros Hff off' line' token Hin Htok Hh.
    apply elem_of_app in Hin as [Hin|Hin].
    + eapply Hall; eauto using fault_free_less.
    + apply list_elem_of_singleton in Hin. simplify_eq.
      exfalso. by eapply Hnew.
Qed.

Lemma index_line_chains_ok io lines off line img :
  chains_ok io lines img ->
  chains_ok io (lines ++ [(off, line)])
            (index_line (line_io io off) off line img).
Proof.
  intros (Hlen & Hall & Hch). unfold index_line.
  assert (Hthere : (off, line) ∈ lines ++ [(off, line)])
    by (apply elem_of_app; right; by apply list_elem_of_singleton).
  assert (Hold : forall e, e ∈ img_entries img ->
                   exists i, sourced (lines ++ [(off, line)]) i e).
  { intros e [i Hi]%Hall. exists i. by apply sourced_more. }
  destruct (key_token 3 (c_str line)) as [token|] eqn:Htok.
  2:{ repeat split; [done | done |]. intros i b Hb.
      eapply chain_ok_kept;
        [by apply Hch | done | done | intros _ t Ht; congruence]. }
  set (k := limpiar_texto token).
  set (h := Z.of_N (hash_string k) mod N_BUCKETS).
  assert (Hh : 0 <= h < N_BUCKETS) by (apply Z.mod_pos_bound; done).
  fold (bucket_offset_of h).
  destruct (line_io io off) as [b1 b2 b3 b4 b5 b6] eqn:Hio; simpl.
  set (b := match (if b2 then image_read_bucket img (bucket_offset_of h)
                   else None) with Some b => b | None => empty_bucket end).
  set (entry := {| key := take (Z.to_nat (KEY_SIZE - 1)) k;
                   csv_offset := off;
                   next_entry := first_entry_offset b |}).
  assert (Hentry : sourced (lines ++ [(off, line)]) h entry)
    by (exists off, line, token; repeat split; auto).
  assert (Hnew : forall e, e ∈ img_entries (image_append img entry) ->
                   exists i, sourced (lines ++ [(off, line)]) i e).
  { simpl. intros e [He|He]%elem_of_app; [by apply Hold|].
    apply list_elem_of_singleton in He as ->. by exists h. }
  assert (Hfail : forall img',
    line_io io off <> line_ok ->
    (forall e, e ∈ img_entries img' ->
               exists i, sourced (lines ++ [(off, line)]) i e) ->
    img_buckets img' = img_buckets img ->
    (forall o e, image_read_entry img o = Some e ->
                 image_read_entry img' o = Some e) ->
    (length (img_entries img) <= length (img_entries img'))%nat ->
    chains_ok io (lines ++ [(off, line)]) img').
  { intros img' Hbad Hsrc' Hsame Hrd Hmore.
    repeat split; [by rewrite Hsame | done |].
    intros i bi Hb. rewrite Hsame in Hb.
    eapply chain_ok_kept; [by apply Hch | done | done |].
    intros Hff. destruct Hbad. by eapply Hff. }
  rewrite Hio in Hfail.
  assert (Happ : forall o e, image_read_entry img o = Some e ->
               image_read_entry (image_append img entry) o = Some e)
    by (intros; by apply image_read_entry_append).
  assert (Hgrow : (length (img_entries img)
                   <= length (img_entries (image_append img entry)))%nat)
    by (simpl; rewrite length_app; lia).
  destruct b1; simpl; [|apply Hfail; auto; done].
  destruct b3; simpl; [|apply Hfail; auto; done].
  destruct b4; simpl; [|apply Hfail; auto; done].
  destruct b5; simpl; [|apply Hfail; auto; done].
  destruct b6; simpl; [|apply Hfail; auto; done].
  split; [|split].
  { rewrite image_write_bucket_slot by lia. by rewrite length_insert. }
  { by rewrite image_write_bucket_entries. }
  intros i bi Hbi. rewrite image_write_bucket_slot in Hbi by lia.
  apply list_lookup_insert_Some in Hbi as [(<- & <- & Hi)|[Hne Hbi]].
  - (* the bucket of the new entry *)
    assert (Hchain : exists l,
      linked (image_read_entry img) (first_entry_offset b) l /\
      (length l <= length (img_entries img))%nat /\
      Forall (sourced lines h) l /\
      (fault_free io (lines ++ [(off, line)]) ->
       forall off' line' token',
         (off', line') ∈ lines ->
         key_token 3 (c_str line') = Some token' ->
         Z.of_N (hash_string (limpiar_texto token')) mod N_BUCKETS = h ->
         exists e, e ∈ l /\ key e = take 255 (limpiar_texto token') /\
                   csv_offset e = off')).
    { destruct (img_buckets img !! Z.to_nat h) as [b0|] eqn:Hb0.
      2:{ apply lookup_ge_None in Hb0. rewrite Hlen in Hb0.
          unfold N_BUCKETS in *. lia. }
      destruct (Hch _ _ Hb0) as (l & Hl & Hll & Hsrc & Hcomplete).
      rewrite Z2Nat.id in Hsrc, Hcomplete by lia.
      destruct b2.
      - subst b. rewrite image_read_bucket_slot, Hb0 by lia.
        exists l. repeat split; auto.
        intros Hff. apply Hcomplete. eauto using fault_free_less.
      - exists []. subst b. simpl. repeat split.
        + constructor.
        + lia.
        + constructor.
        + intros Hff. specialize (Hff _ _ Hthere).
          rewrite Hio in Hff. discriminate. }
    destruct Hchain as (l & Hl & Hll & Hsrc & Hcomplete).
    exists (entry :: l). rewrite Z2Nat.id by lia. repeat split.
    + apply linked_step.
      * simpl. pose proof (image_size_pos img). lia.
      * rewrite image_read_entry_write_bucket.
        apply image_read_entry_new.
      * eapply linked_ext; [|exact Hl]. intros o e He.
        rewrite image_read_entry_write_bucket. by apply Happ.
    + rewrite image_write_bucket_entries. simpl.
      rewrite length_app. simpl. lia.
    + constructor; [done|].
      eapply Forall_impl; [done|]. intros e. apply sourced_more.
    + intros Hff off' line' token' Hin Htok' Hh'.
      apply elem_of_app in Hin as [Hin|Hin].
      * destruct (Hcomplete Hff _ _ _ Hin Htok' Hh') as (e & He & Hrest).
        exists e. split; [|done]. apply elem_of_cons; by right.
      * apply list_elem_of_singleton in Hin. simplify_eq.
        exists entry. split; [apply elem_of_cons; by left | done].
  - (* another bucket *)
    eapply chain_ok_kept; [by apply Hch | | |].
    + intros o e He. rewrite image_read_entry_write_bucket. by apply Happ.
    + by rewrite image_write_bucket_entries.
    + intros _ token' Htok'. simplify_eq. fold k. fold h. lia.
Qed.
End BuildInvariant.

Section BuiltIndex.
Context {H : Hasher}.

Lemma empty_image_chains_ok io : chains_ok io [] empty_image.
Proof.
  split; [apply length_replicate|].
  split; [by intros e ?%elem_of_nil|].
  change (img_buckets empty_image)
    with (replicate (Z.to_nat N_BUCKETS) empty_bucket).
  intros i b [-> _]%lookup_replicate. exists []. repeat split.
  - constructor.
  - apply Nat.le_0_l.
  - constructor.
  - intros _ off line token Hin. by apply elem_of_nil in Hin.
Qed.

Lemma index_lines_chains_ok io lines :
  chains_ok io lines (index_lines io lines empty_image).
Proof.
  induction lines as [|[off line] lines IH] using rev_ind.
  - apply empty_image_chains_ok.
  - unfold index_lines. rewrite foldl_snoc. simpl.
    by apply index_line_chains_ok.
Qed.

Lemma build_index_success csv io img :
  build_index csv io = (0, Some img) ->
  exists data, csv = Some data /\
               img = index_lines io (csv_records data) empty_image.
Proof.
  unfold build_index, csv_records. destruct csv as [data|]; [|done].
  destruct (open_index_ok io); cbn [negb]; [|done].
  destruct (write_header_ok io); cbn [negb]; [|done].
  destruct (forallb (write_empty_ok io) (seqZ 0 N_BUCKETS)); cbn [negb];
    [|done].
  destruct (fgets 4096 data) eqn:E; [|done]. intros [= <-].
  exists data. by rewrite E.
Qed.

Lemma build_index_chains_ok data io img :
  build_index (Some data) io = (0, Some img) ->
  chains_ok io (csv_records data) img.
Proof.
  intros (data' & [= <-] & ->)%build_index_success.
  apply index_lines_chains_ok.
Qed.

(** Every bucket of a built index has a chain that ends, and the slots
    outside the table cannot be read. *)
Lemma built_bucket_chain data io img i b :
  build_index (Some data) io = (0, Some img) ->
  read_bucket (image_file img) (bucket_offset_of i) = Some b ->
  0 <= i ->
  chain_ok io (csv_records data) img (Z.to_nat i) b.
Proof.
  intros (_ & _ & Hch)%build_index_chains_ok Hrd Hi. simpl in Hrd.
  rewrite image_read_bucket_slot in Hrd by done. by apply Hch.
Qed.

Lemma built_window data io img nb h offs :
  build_index (Some data) io = (0, Some img) ->
  exists es, window (image_file img) nb h (length (img_entries img)) offs es.
Proof.
  intros Hb. induction offs as [|off offs [es IH]].
  - exists []. constructor.
  - destruct (decide (0 <= h + off < nb)) as [Hin|Hout].
    + destruct (read_bucket (image_file img) (bucket_offset_of (h + off)))
        as [b|] eqn:Hrd.
      * destruct (built_bucket_chain _ _ _ _ _ Hb Hrd) as (l & Hl & Hlen & _);
          [lia|].
        exists (l ++ es). eapply window_chain; eauto.
        by apply linked_is_chain.
      * exists es. by apply window_unread.
    + exists es. apply window_outside; [lia | done].
Qed.
End BuiltIndex.

(** ** Claims about the builder *)

Section BuilderClaims.
Context {H : Hasher}.

Lemma image_read_bucket_below img i :
  i < 0 -> image_read_bucket img (bucket_offset_of i) = None.
Proof.
  intros Hi. unfold image_read_bucket, slot_of, bucket_offset_of,
    sizeof_IndexHeader, sizeof_BucketDisk.
  replace (24 <=? 24 + 8 * i) with false; [done|].
  symmetry; apply Z.leb_gt; lia.
Qed.

(** C5, as the code has it: in an index file written by [build_index],
    whatever stdio calls failed on single lines, every entry reachable
    from the head of bucket [i] was written for a data line whose cleaned
    key token hashes to [i] modulo the bucket count. The entry stores the
    first 255 bytes of that key, so the stored key itself hashes to [i]
    when the cleaned key is at most 255 bytes long. *)
Theorem bucket_containment data io img i b e :
  build_index (Some data) io = (0, Some img) ->
  read_bucket (image_file img) (bucket_offset_of i) = Some b ->
  reachable (read_entry (image_file img)) (first_entry_offset b) e ->
  exists off line token,
    (off, line) ∈ csv_records data /\
    key_token 3 (c_str line) = Some token /\
    key e = take 255 (limpiar_texto token) /\
    csv_offset e = off /\
    Z.of_N (hash_string (limpiar_texto token)) mod N_BUCKETS = i /\
    (strlen (limpiar_texto token) <= 255 ->
     Z.of_N (hash_string (key e)) mod N_BUCKETS = i).
Proof.
  intros Hb Hrd Hreach.
  destruct (Z.lt_ge_cases i 0) as [Hneg|Hi].
  { simpl in Hrd. by rewrite image_read_bucket_below in Hrd. }
  destruct (built_bucket_chain _ _ _ _ _ Hb Hrd Hi) as (l & Hl & _ & Hsrc & _).
  pose proof (linked_reachable _ _ _ _ Hl Hreach) as Hin.
  rewrite Forall_forall in Hsrc. apply Hsrc in Hin.
  rewrite Z2Nat.id in Hin by done.
  destruct Hin as (off & line & token & Hin & Htok & Hkey & Hoff & Hh).
  exists off, line, token. repeat split; auto.
  intros Hshort. rewrite Hkey, take_ge; [done|]. unfold strlen in Hshort. lia.
Qed.



End BuilderClaims.

Lemma forallb_false_witness {A} (f : A -> bool) l :
  forallb f l = false -> exists x, x ∈ l /\ f x = false.
Proof.
  induction l as [|x l IH]; simpl; [done|].
  destruct (f x) eqn:Hx; simpl.
  - intros (y & Hy & Hf)%IH. exists y. split; [by apply elem_of_cons; right | done].
  - intros _. exists x. split; [by apply elem_of_cons; left | done].
Qed.

Lemma forallb_true_all {A} (f : A -> bool) l x :
  forallb f l = true -> x ∈ l -> f x = true.
Proof.
  induction l as [|y l IH]; simpl; [by intros _ ?%elem_of_nil|].
  intros [Hy Hl]%andb_true_iff [->|Hin]%elem_of_cons; auto.
Qed.

Section BuildStatus.
Context {H : Hasher}.

Lemma build_index_cases csv io :
  (build_fatal csv io /\ build_index csv io = (-1, None)) \/
  (~ build_fatal csv io /\
   exists img, build_index csv io = (0, Some img)).
Proof.
  unfold build_index, build_fatal.
  destruct csv as [data|]; [|left; by auto].
  destruct (forallb (write_empty_ok io) (seqZ 0 N_BUCKETS)) eqn:Hw;
    destruct (open_index_ok io) eqn:Ho;
    destruct (write_header_ok io) eqn:Hh;
    cbn [negb]; try (left; by auto).
  - destruct data as [|c data]; [left; split; [by do 4 right | done]|].
    right. split; [|by eexists].
    intros [?|[?|[?|[(i & Hi & Hf)|?]]]]; try done.
    rewrite (forallb_true_all _ _ i Hw) in Hf; [done|].
    apply elem_of_seqZ. lia.
  - left. split; [|done].
    apply forallb_false_witness in Hw as (i & Hi%elem_of_seqZ & Hf).
    do 3 right; left. exists i. split; [lia | done].
Qed.

(** C8, as the code has it: [build_index] returns -1 exactly when the
    record store cannot be opened, the index file cannot be created, its
    header or one of its empty slots cannot be written, or the record
    store delivers no line at all; otherwise it returns 0 and an index
    file, whatever happens on single lines. A line without a key token,
    or on which a seek or a write fails, leaves the bucket table as it
    was. A failed read of the bucket slot does not: the slot is taken
    as empty and the line is inserted at the head of a new chain. *)
Theorem build_failure_status csv io :
  (fst (build_index csv io) = -1 <-> build_fatal csv io) /\
  (fst (build_index csv io) = 0 <-> ~ build_fatal csv io) /\
  (fst (build_index csv io) = 0 <-> is_Some (snd (build_index csv io))) /\
  (forall lio off line img,
     key_token 3 (c_str line) = None \/ seek_bucket_ok lio = false \/
     seek_end_ok lio = false \/ write_entry_ok lio = false \/
     seek_bucket_again_ok lio = false \/ write_bucket_ok lio = false ->
     img_buckets (index_line lio off line img) = img_buckets img) /\
  (forall off line token img,
     key_token 3 (c_str line) = Some token ->
     let lio :=
       {| seek_bucket_ok := true; read_bucket_ok := false;
          seek_end_ok := true; write_entry_ok := true;
          seek_bucket_again_ok := true; write_bucket_ok := true |} in
     let h := Z.of_N (hash_string (limpiar_texto token)) mod N_BUCKETS in
     index_line lio off line img =
     image_write_bucket
       (image_append img {| key := take 255 (limpiar_texto token);
                            csv_offset := off; next_entry := -1 |})
       (bucket_offset_of h)
       {| first_entry_offset := image_size img |}).
Proof.
  split; [|split; [|split; [|split]]].
  - destruct (build_index_cases csv io) as [[Hf ->]|[Hf [img ->]]];
      simpl; split; done.
  - destruct (build_index_cases csv io) as [[Hf ->]|[Hf [img ->]]];
      simpl; split; done.
  - destruct (build_index_cases csv io) as [[Hf ->]|[Hf [img ->]]];
      simpl; split; try done; by intros [? ?].
  - intros lio off line img. unfold index_line.
    destruct (key_token 3 (c_str line)) as [token|]; [|done].
    destruct lio as [b1 b2 b3 b4 b5 b6]; simpl.
    intros [?|[->|[->|[->|[->| ->]]]]]; [done|done| | | |];
      repeat (match goal with
              | |- context [if negb ?b then _ else _] => destruct b; simpl
              end; try done).
  - intros off line token img Htok. simpl. unfold index_line.
    by rewrite Htok.
Qed.
End BuildStatus.

(** ** Claims about the key match *)



(** ** Claims about the readers *)

Lemma scan_unquoted_shorter p :
  (length (snd (scan_unquoted p)) <= length p)%nat.
Proof.
  induction p as [|c r IH]; simpl; [done|].
  destruct (ends_field c); simpl; [done|].
  destruct (scan_unquoted r) as [f rest]; simpl in *. lia.
Qed.

Lemma skip_quoted_shorter p : (length (skip_quoted p) <= length p)%nat.
Proof.
  remember (length p) as n eqn:Hn.
  assert (Hle : (length p <= n)%nat) by lia. clear Hn.
  revert p Hle; induction n as [|n IH]; intros [|c r] Hle; simpl in *;
    try lia.
  destruct (Ascii.eqb c DQ).
  - destruct r as [|d r']; simpl in *; [lia|].
    destruct (Ascii.eqb d DQ); simpl; [|lia].
    etransitivity; [apply IH|]; lia.
  - etransitivity; [apply IH|]; lia.
Qed.

Lemma step_over_comma_shorter col p :
  (length (snd (step_over_comma col p)) <= length p)%nat.
Proof.
  destruct p as [|c r]; simpl; [done|].
  destruct (Ascii.eqb c COMMA); simpl; lia.
Qed.

(** The fuel [csv_get_column] gives its loop is never exhausted: any two
    amounts above the length of the line give the same result. *)
Lemma csv_get_column_loop_fuel fuel1 fuel2 target_col out_sz col p :
  (length p < fuel1)%nat -> (length p < fuel2)%nat ->
  csv_get_column_loop fuel1 target_col out_sz col p =
  csv_get_column_loop fuel2 target_col out_sz col p.
Proof.
  revert fuel2 col p; induction fuel1 as [|fuel1 IH];
    intros [|fuel2] col p H1 H2; try lia.
  simpl. destruct p as [|c r]; [done|].
  destruct (Ascii.eqb c LF || Ascii.eqb c CR) eqn:Hnl; [done|].
  destruct (col =? target_col); [done|].
  assert (Hshort : forall cp : Z * list ascii,
            cp = (if Ascii.eqb c DQ
                  then step_over_comma col (skip_quoted r)
                  else step_over_comma col (snd (scan_unquoted (c :: r)))) ->
            (length (snd cp) <= length r)%nat).
  { intros cp ->. destruct (Ascii.eqb c DQ).
    - etransitivity; [apply step_over_comma_shorter|].
      apply skip_quoted_shorter.
    - apply orb_false_iff in Hnl as [Hlf Hcr].
      cbn [scan_unquoted]. unfold ends_field.
      rewrite Hlf, Hcr, !orb_false_r.
      destruct (Ascii.eqb c COMMA) eqn:Hc; cbn [snd].
      + cbn [step_over_comma]. rewrite Hc. simpl. lia.
      + destruct (scan_unquoted r) as [f rest] eqn:Hr; cbn [snd].
        etransitivity; [apply step_over_comma_shorter|].
        pose proof (scan_unquoted_shorter r) as Hs. rewrite Hr in Hs.
        simpl in *. lia. }
  destruct (if Ascii.eqb c DQ then _ else _) as [col' p'] eqn:Hstep.
  specialize (Hshort _ eq_refl). simpl in *. apply IH; lia.
Qed.

Lemma csv_get_column_loop_flag fuel target_col out_sz col p :
  fst (csv_get_column_loop fuel target_col out_sz col p) = 0 \/
  fst (csv_get_column_loop fuel target_col out_sz col p) = 1.
Proof.
  revert col p; induction fuel as [|fuel IH]; intros col p; simpl; [by left|].
  destruct p as [|c r]; [by left|].
  destruct (Ascii.eqb c LF || Ascii.eqb c CR); [by left|].
  destruct (col =? target_col).
  - destruct (Ascii.eqb c DQ); by right.
  - destruct (if Ascii.eqb c DQ then _ else _) as [col' p']. apply IH.
Qed.

Lemma pass_update_true u linebuf :
  u <> [] ->
  pass_update (Some u) linebuf = true ->
  fst (csv_get_column linebuf 12 64) = 1 /\
  strcasecmp (snd (csv_get_column linebuf 12 64)) u = 0.
Proof.
  intros Hu. unfold pass_update. destruct u as [|c u]; [done|].
  pose proof (csv_get_column_loop_flag (S (length linebuf)) 12 64 1 linebuf)
    as Hflag. fold (csv_get_column linebuf 12 64) in Hflag.
  destruct (csv_get_column linebuf 12 64) as [ok parsed]; simpl in *.
  destruct (Z.eqb_spec ok 0); [done|].
  destruct (Z.eqb_spec (strcasecmp parsed (c :: u)) 0); [|done].
  intros _. split; [lia | done].
Qed.

Lemma strlen_app a b : strlen (a ++ b) = strlen a + strlen b.
Proof. unfold strlen. rewrite length_app. lia. Qed.

Lemma worker_visit_ok title_value update_value csv resp_sz e st c st' :
  collected_ok update_value resp_sz st ->
  under_cap st = true ->
  worker_visit title_value update_value csv resp_sz e st = (c, st') ->
  collected_ok update_value resp_sz st'.
Proof.
  intros (Hf & Hn & Hu & Hsz & Hall) Hcap%Z.ltb_lt. unfold worker_visit.
  destruct (title_match title_value e); [|by intros [= <- <-]].
  destruct (fgets_at _ csv (csv_offset e)) as [raw|]; [|by intros [= <- <-]].
  destruct (pass_update update_value (c_str raw)) eqn:Hp;
    [|by intros [= <- <-]].
  destruct (Z.ltb_spec (used st + strlen (c_str raw) + 1) resp_sz);
    intros [= <- <-]; [|done].
  unfold collected_ok, resp_buf; simpl.
  rewrite length_app, concat_app, strlen_app, Forall_app; simpl.
  rewrite app_nil_r. unfold resp_buf in Hu. unfold strlen in *.
  repeat split; try lia; auto.
Qed.

Lemma kw_visit_continue keyword exact csv e st st' :
  printed_ok 49 st ->
  kw_visit keyword exact csv e st = (Continue, st') -> printed_ok 49 st'.
Proof.
  intros [Hf Hn]. unfold kw_visit.
  destruct (kw_match keyword exact e); [|by intros [= <-]].
  destruct (Z.leb_spec 50 (kw_found st + 1)); [done|]. intros [= <-].
  unfold printed_ok; simpl.
  destruct (fgets_at 4096 csv (csv_offset e));
    rewrite ?length_app; simpl; lia.
Qed.

Lemma kw_visit_finish keyword exact csv e st st' :
  printed_ok 49 st ->
  kw_visit keyword exact csv e st = (Finish, st') -> printed_ok 50 st'.
Proof.
  intros [Hf Hn]. unfold kw_visit.
  destruct (kw_match keyword exact e); [|done].
  destruct (Z.leb_spec 50 (kw_found st + 1)); [|done]. intros [= <-].
  unfold printed_ok; simpl.
  destruct (fgets_at 4096 csv (csv_offset e));
    rewrite ?length_app; simpl; lia.
Qed.

Section ReaderInvariants.
Context {H : Hasher}.

Lemma kw_scan_ok fuel keyword exact idx csv out :
  kw_scan fuel keyword exact idx csv = Some out -> printed_ok 50 out.
Proof.
  unfold kw_scan.
  apply (scan_buckets_invariant idx _ _ (printed_ok 49) (printed_ok 50)).
  - unfold printed_ok. intros st. lia.
  - intros e st st' Hst _. by apply kw_visit_continue.
  - intros e st st' Hst _. by apply kw_visit_finish.
  - unfold printed_ok. simpl. lia.
Qed.

Lemma worker_scan_ok fuel title_value update_value resp_sz idx header csv st :
  0 < resp_sz ->
  worker_scan fuel title_value update_value resp_sz idx header csv = Some st ->
  collected_ok update_value resp_sz st.
Proof.
  intros Hsz. unfold worker_scan.
  apply (scan_buckets_invariant idx _ _ (collected_ok update_value resp_sz)
                                (collected_ok update_value resp_sz)).
  - done.
  - intros e st0 st' Hst Hg. by apply worker_visit_ok.
  - intros e st0 st' Hst Hg. by apply worker_visit_ok.
  - unfold collected_ok, resp_buf, MAX_RESULTS, strlen. simpl.
    repeat split; try lia. constructor.
Qed.

(** With an index file that [build_index] wrote, more fuel than the file
    has entries is enough for either reader. *)
Lemma kw_scan_returns fuel keyword exact data io img csv :
  build_index (Some data) io = (0, Some img) ->
  (length (img_entries img) < fuel)%nat ->
  is_Some (kw_scan fuel keyword exact (image_file img) csv).
Proof.
  intros Hb Hfuel. unfold kw_scan.
  destruct (built_window data io img N_BUCKETS
              (Z.of_N (hash_string keyword) mod N_BUCKETS)
              (offsets (if exact then 0 else - RANGE)
                       (if exact then 0 else RANGE)) Hb) as [es Hw].
  erewrite scan_buckets_window by done. by eexists.
Qed.

Lemma worker_scan_returns fuel title_value update_value resp_sz data io img
    header csv :
  build_index (Some data) io = (0, Some img) ->
  (length (img_entries img) < fuel)%nat ->
  is_Some (worker_scan fuel title_value update_value resp_sz
                       (image_file img) header csv).
Proof.
  intros Hb Hfuel. unfold worker_scan.
  destruct (built_window data io img (worker_buckets header)
              (Z.of_N (hash_string title_value) mod worker_buckets header)
              (offsets (- BUCKET_RANGE) BUCKET_RANGE) Hb) as [es Hw].
  erewrite scan_buckets_window by done. by eexists.
Qed.
End ReaderInvariants.

Lemma worker_visit_capped title_value update_value csv resp_sz e st c st' :
  capped update_value csv st -> under_cap st = true ->
  worker_visit title_value update_value csv resp_sz e st = (c, st') ->
  capped update_value csv st'.
Proof.
  intros (Hf & Hn & Hall) Hcap%Z.ltb_lt. unfold worker_visit.
  destruct (title_match title_value e); [|by intros [= <- <-]].
  destruct (fgets_at _ csv (csv_offset e)) as [raw|] eqn:Hrd;
    [|by intros [= <- <-]].
  destruct (pass_update update_value (c_str raw)) eqn:Hp;
    [|by intros [= <- <-]].
  destruct (used st + strlen (c_str raw) + 1 <? resp_sz);
    intros [= <- <-]; [|done].
  unfold capped; simpl. rewrite length_app, Forall_app; simpl.
  repeat split; try lia; auto.
  constructor; [|constructor]. split; [done|]. by exists (csv_offset e), raw.
Qed.

Section Cap.
Context {H : Hasher}.

Lemma worker_scan_capped fuel title_value update_value resp_sz idx header
    csv st :
  worker_scan fuel title_value update_value resp_sz idx header csv = Some st ->
  capped update_value csv st.
Proof.
  unfold worker_scan.
  apply (scan_buckets_invariant idx _ _ (capped update_value csv)
                                (capped update_value csv)).
  - done.
  - intros e st0 st' Hst Hg. by apply worker_visit_capped.
  - intros e st0 st' Hst Hg. by apply worker_visit_capped.
  - unfold capped, MAX_RESULTS. simpl. repeat split; try lia. constructor.
Qed.

Lemma search_by_keyword_returns fuel keyword exact data io img index_file :
  build_index (Some data) io = (0, Some img) ->
  (length (img_entries img) < fuel)%nat ->
  index_file = None \/ index_file = Some (image_file img) ->
  is_Some (search_by_keyword fuel keyword exact index_file (Some data) io).
Proof.
  intros Hb Hfuel Hidx. unfold search_by_keyword.
  destruct keyword as [keyword|]; [|by eexists].
  assert (Hopen : match index_file with
                  | Some idx => Some idx
                  | None => match build_index (Some data) io with
                            | (0, Some img) => Some (image_file img)
                            | _ => None
                            end
                  end = Some (image_file img))
    by (destruct Hidx as [-> | ->]; [by rewrite Hb | done]).
  rewrite Hopen.
  destruct (kw_scan_returns fuel keyword exact data io img data Hb Hfuel)
    as [out ->]. by eexists.
Qed.

Lemma search_by_title_and_update_returns fuel title_value update_value
    resp_sz data io img index_file :
  build_index (Some data) io = (0, Some img) ->
  (length (img_entries img) < fuel)%nat ->
  index_file = None \/ index_file = Some (image_file img) ->
  is_Some (search_by_title_and_update fuel title_value update_value resp_sz
                                      index_file (Some data) io).
Proof.
  intros Hb Hfuel Hidx. unfold search_by_title_and_update.
  destruct title_value as [title_value|]; [|by eexists].
  assert (Hopen : match index_file with
                  | Some idx => Some idx
                  | None => match build_index (Some data) io with
                            | (0, Some img) => Some (image_file img)
                            | _ => None
                            end
                  end = Some (image_file img))
    by (destruct Hidx as [-> | ->]; [by rewrite Hb | done]).
  rewrite Hopen. simpl.
  destruct (worker_scan_returns fuel title_value update_value resp_sz
              data io img (img_header img) data Hb Hfuel) as [st ->].
  by eexists.
Qed.

(** C6: neither reader returns more than 50 results. The counter of
    [search_by_keyword] ends between 0 and 50 and bounds the lines
    printed; the value [search_by_title_and_update] returns and the
    lines in its buffer are at most [MAX_RESULTS]. Once the counter of
    the worker is at the cap no further bucket or entry is read, and the
    fiftieth match of the keyword search leaves both loops. On an index
    file written by [build_index] both readers return, with more fuel
    than the file has entries. *)
Theorem result_cap fuel :
  (forall keyword exact index_file csv io out,
     search_by_keyword fuel keyword exact index_file csv io
     = Some (KwFin out) ->
     0 <= kw_found out <= 50 /\
     Z.of_nat (length (kw_lines out)) <= kw_found out) /\
  (forall title_value update_value resp_sz index_file csv io r st,
     search_by_title_and_update fuel title_value update_value resp_sz
                                index_file csv io = Some (r, st) ->
     r <= MAX_RESULTS /\ Z.of_nat (length (appended st)) <= MAX_RESULTS) /\
  (forall idx visit nb h offs (st : Collected),
     found st = MAX_RESULTS ->
     scan_buckets idx under_cap visit fuel nb h offs st = Some st) /\
  (forall keyword exact csv entry st,
     kw_match keyword exact entry = true ->
     kw_found st + 1 = 50 ->
     fst (kw_visit keyword exact csv entry st) = Finish) /\
  (forall data io img index_file,
     build_index (Some data) io = (0, Some img) ->
     (length (img_entries img) < fuel)%nat ->
     index_file = None \/ index_file = Some (image_file img) ->
     (forall keyword exact,
        is_Some (search_by_keyword fuel keyword exact index_file
                                   (Some data) io)) /\
     (forall title_value update_value resp_sz,
        is_Some (search_by_title_and_update fuel title_value update_value
                   resp_sz index_file (Some data) io))).
Proof.
  split; [|split; [|split; [|split]]].
  - intros keyword exact index_file csv io out. unfold search_by_keyword.
    destruct keyword as [keyword|]; [|done].
    destruct (match index_file with Some _ => _ | None => _ end) as [idx|];
      [|by destruct csv].
    destruct csv as [data|]; [|done].
    destruct (kw_scan fuel keyword exact idx data) as [out'|] eqn:Hs; [|done].
    intros [= <-]. by apply kw_scan_ok in Hs.
  - intros title_value update_value resp_sz index_file csv io r st.
    unfold search_by_title_and_update, MAX_RESULTS.
    destruct title_value as [title_value|]; [|intros [= <- <-]; simpl; lia].
    destruct (match index_file with Some _ => _ | None => _ end) as [idx|];
      [|destruct csv; intros [= <- <-]; simpl; lia].
    destruct csv as [data|]; [|intros [= <- <-]; simpl; lia].
    destruct (read_header idx) as [header|];
      [|intros [= <- <-]; simpl; lia].
    destruct (worker_scan _ _ _ _ _ _ _) as [st'|] eqn:Hs; [|done].
    intros [= <- <-]. apply worker_scan_capped in Hs as (Hf & Hn & _).
    unfold MAX_RESULTS in Hf. lia.
  - intros idx visit nb h offs st Hst.
    assert (under_cap st = false) as Hg
      by (unfold under_cap; apply Z.ltb_ge; lia).
    destruct offs; simpl; [done|]. by rewrite Hg.
  - intros keyword exact csv entry st Hm Hf. unfold kw_visit.
    rewrite Hm, Hf. done.
  - intros data io img index_file Hb Hfuel Hidx. split.
    + intros. by eapply search_by_keyword_returns.
    + intros. by eapply search_by_title_and_update_returns.
Qed.
End Cap.

Lemma worker_visit_accepted title_value update_value csv resp_sz e st :
  worker_visit title_value update_value csv resp_sz e st =
  match accepted_line title_value update_value csv e with
  | Some line =>
      if used st + strlen line + 1 <? resp_sz then
        (Continue,
         {| found := found st + 1;
            used := used st + strlen line;
            appended := appended st ++ [line] |})
      else (Finish, st)
  | None => (Continue, st)
  end.
Proof.
  unfold worker_visit, accepted_line.
  destruct (title_match title_value e); [|done].
  destruct (fgets_at _ csv (csv_offset e)) as [raw|]; [|done].
  by destruct (pass_update update_value (c_str raw)).
Qed.

Lemma omap_cons {A B} (f : A -> option B) x l :
  omap f (x :: l) =
  match f x with Some y => y :: omap f l | None => omap f l end.
Proof. done. Qed.

(** The worker's two loops over the entries of a window, in terms of the
    lines it accepts: the lines appended are the first of them, and the
    loops stop at the cap, at the end of the window, or before the first
    accepted line that leaves no room for itself and one more byte. *)
Lemma worker_visit_all title_value update_value csv resp_sz es st c st' :
  visit_all under_cap (worker_visit title_value update_value csv resp_sz)
            es st = (c, st') ->
  found st <= MAX_RESULTS ->
  exists new rest,
    omap (accepted_line title_value update_value csv) es = new ++ rest /\
    appended st' = appended st ++ new /\
    found st' = found st + Z.of_nat (length new) /\
    used st' = used st + strlen (concat new) /\
    (found st' = MAX_RESULTS \/ rest = [] \/
     exists line rest', rest = line :: rest' /\
                        resp_sz <= used st' + strlen line + 1).
Proof.
  revert st; induction es as [|e es IH]; intros st.
  - simpl. intros [= <- <-] _. exists [], [].
    repeat split; rewrite ?app_nil_r; unfold strlen; simpl; auto; lia.
  - rewrite omap_cons. cbn [visit_all]. unfold under_cap at 1.
    destruct (Z.ltb_spec (found st) MAX_RESULTS) as [Hlt|Hge]; cbn [negb].
    2:{ intros [= <- <-] Hle. eexists [], _.
        repeat split; rewrite ?app_nil_r; unfold strlen; simpl; auto; lia. }
    rewrite worker_visit_accepted.
    destruct (accepted_line title_value update_value csv e) as [line|];
      [|by apply IH].
    destruct (Z.ltb_spec (used st + strlen line + 1) resp_sz) as [Hfit|Hfull].
    + intros Hv _. apply IH in Hv; [|simpl; lia].
      destruct Hv as (new & rest & Hsplit & Happ & Hf & Hu & Hstop).
      simpl in Happ, Hf, Hu.
      exists (line :: new), rest.
      split; [by rewrite Hsplit|].
      split; [by rewrite Happ, <- app_assoc|].
      split; [rewrite Hf; simpl; lia|].
      split; [rewrite Hu; simpl; rewrite strlen_app; lia | exact Hstop].
    + intros [= <- <-] _. eexists [], _.
      repeat split; rewrite ?app_nil_r; simpl; auto;
        try (unfold strlen; simpl; lia).
      right; right. eauto.
Qed.

Section WorkerClaims.
Context {H : Hasher}.

(** C9: [search_by_title_and_update] appends the accepted lines to the
    caller's buffer of [resp_sz] bytes (2048 for the Response payload).
    The value returned is -1 or the number of lines appended, and the
    bytes used plus the terminating NUL never exceed [resp_sz]. On a
    window of chains that end, the lines appended are the first lines
    accepted, and when fewer than [MAX_RESULTS] were appended and one is
    left, that one did not fit with one more byte: collecting stopped
    there. Such a window exists in every index file written by
    [build_index]. An accepted line that does not fit leaves both loops
    with the results as they were. *)
Theorem response_buffer fuel title_value update_value resp_sz :
  0 < resp_sz ->
  (forall index_file csv io r st,
     search_by_title_and_update fuel title_value update_value resp_sz
                                index_file csv io = Some (r, st) ->
     (r = -1 \/ r = Z.of_nat (length (appended st))) /\
     used st = strlen (resp_buf st) /\
     strlen (resp_buf st) + 1 <= resp_sz) /\
  (forall title idx header data io bound es,
     title_value = Some title ->
     read_header idx = Some header ->
     window idx (worker_buckets header)
            (Z.of_N (hash_string title) mod worker_buckets header)
            bound (offsets (- BUCKET_RANGE) BUCKET_RANGE) es ->
     (bound < fuel)%nat ->
     exists st rest,
       search_by_title_and_update fuel title_value update_value resp_sz
                                  (Some idx) (Some data) io
       = Some (found st, st) /\
       omap (accepted_line title update_value data) es
       = appended st ++ rest /\
       found st = Z.of_nat (length (appended st)) /\
       (found st = MAX_RESULTS \/ rest = [] \/
        exists line rest', rest = line :: rest' /\
                           resp_sz <= used st + strlen line + 1)) /\
  (forall data io img nb h offs,
     build_index (Some data) io = (0, Some img) ->
     exists es,
       window (image_file img) nb h (length (img_entries img)) offs es) /\
  (forall title csv entry st line,
     accepted_line title update_value csv entry = Some line ->
     resp_sz <= used st + strlen line + 1 ->
     worker_visit title update_value csv resp_sz entry st = (Finish, st)).
Proof.
  intros Hsz. split; [|split; [|split]]; cycle 3.
  { intros title csv entry st line Hacc Hfull.
    rewrite worker_visit_accepted, Hacc.
    destruct (Z.ltb_spec (used st + strlen line + 1) resp_sz); [lia | done]. }
  - intros index_file csv io r st. unfold search_by_title_and_update.
    assert (Hnothing : forall r' st',
      Some (-1, {| found := 0; used := 0; appended := [] |}) = Some (r', st') ->
      (r' = -1 \/ r' = Z.of_nat (length (appended st'))) /\
      used st' = strlen (resp_buf st') /\
      strlen (resp_buf st') + 1 <= resp_sz).
    { intros r' st' [= <- <-]. unfold resp_buf, strlen; simpl.
      repeat split; auto; lia. }
    destruct title_value as [title|]; [|by apply Hnothing].
    destruct (match index_file with Some _ => _ | None => _ end) as [idx|];
      [|destruct csv; by apply Hnothing].
    destruct csv as [data|]; [|by apply Hnothing].
    destruct (read_header idx) as [header|]; [|by apply Hnothing].
    destruct (worker_scan _ _ _ _ _ _ _) as [st'|] eqn:Hs; [|done].
    intros [= <- <-].
    apply worker_scan_ok in Hs as (Hf & Hn & Hu & Hroom & _); [|done].
    repeat split; auto; lia.
  - intros title idx header data io bound es -> Hhd Hw Hfuel.
    unfold search_by_title_and_update. rewrite Hhd. unfold worker_scan.
    rewrite (scan_buckets_window idx _ _ fuel _ _ bound _ es)
      by done.
    destruct (visit_all under_cap _ es _) as [c st] eqn:Hv.
    apply worker_visit_all in Hv; [|simpl; unfold MAX_RESULTS; lia].
    destruct Hv as (new & rest & Hsplit & Happ & Hf & Hu & Hstop).
    simpl in *. subst new. exists st, rest. repeat split; auto.
  - intros data io img nb h offs Hb. by eapply built_window.
Qed.

(** C7: with a non-empty [update_value], every line the worker returns
    has a column 12, as [csv_get_column] extracts it into its 64-byte
    buffer, that [strcasecmp] finds equal to [update_value]; the counter
    counts exactly those lines; an entry whose record fails the test
    leaves the results and the counter as they were; and when no line of
    the record store passes the test the count is zero. On an index
    file written by [build_index] the search returns. *)
Theorem update_filter fuel title_value u resp_sz :
  u <> [] ->
  (forall index_file csv io r st,
     search_by_title_and_update fuel title_value (Some u) resp_sz
                                index_file csv io = Some (r, st) ->
     Forall (fun line =>
               fst (csv_get_column line 12 64) = 1 /\
               strcasecmp (snd (csv_get_column line 12 64)) u = 0)
            (appended st) /\
     found st = Z.of_nat (length (appended st)) /\
     ((forall data off raw,
         csv = Some data ->
         fgets_at (Z.to_nat MAX_LINE) data off = Some raw ->
         pass_update (Some u) (c_str raw) = false) ->
      found st = 0 /\ appended st = [] /\ (r = 0 \/ r = -1))) /\
  (forall title csv e st raw,
     fgets_at (Z.to_nat MAX_LINE) csv (csv_offset e) = Some raw ->
     pass_update (Some u) (c_str raw) = false ->
     worker_visit title (Some u) csv resp_sz e st = (Continue, st)) /\
  (forall data io img index_file,
     build_index (Some data) io = (0, Some img) ->
     (length (img_entries img) < fuel)%nat ->
     index_file = None \/ index_file = Some (image_file img) ->
     is_Some (search_by_title_and_update fuel title_value (Some u) resp_sz
                                         index_file (Some data) io)).
Proof.
  intros Hu. split; [|split].
  - intros index_file csv io r st. unfold search_by_title_and_update.
    assert (Hnothing : forall r' st',
      Some (-1, {| found := 0; used := 0; appended := [] |}) = Some (r', st') ->
      Forall (fun line =>
               fst (csv_get_column line 12 64) = 1 /\
               strcasecmp (snd (csv_get_column line 12 64)) u = 0)
            (appended st') /\
      found st' = Z.of_nat (length (appended st')) /\
      ((forall data off raw,
         csv = Some data ->
         fgets_at (Z.to_nat MAX_LINE) data off = Some raw ->
         pass_update (Some u) (c_str raw) = false) ->
       found st' = 0 /\ appended st' = [] /\ (r' = 0 \/ r' = -1))).
    { intros r' st' [= <- <-]. simpl. repeat split; auto. }
    destruct title_value as [title|]; [|by apply Hnothing].
    destruct (match index_file with Some _ => _ | None => _ end) as [idx|];
      [|destruct csv; by apply Hnothing].
    destruct csv as [data|]; [|by apply Hnothing].
    destruct (read_header idx) as [header|]; [|by apply Hnothing].
    destruct (worker_scan _ _ _ _ _ _ _) as [st'|] eqn:Hs; [|done].
    intros [= <- <-]. clear Hnothing.
    apply worker_scan_capped in Hs as (Hf & Hn & Hall).
    split; [|split; [done|]].
    + eapply Forall_impl; [exact Hall|]. simpl.
      intros line [Hp _]. by apply pass_update_true.
    + intros Hnone. destruct (appended st') as [|line rest] eqn:Happ.
      * simpl in Hn. repeat split; auto.
      * apply Forall_cons in Hall as [[Hp (off & raw & Hrd & ->)] _].
        rewrite (Hnone data off raw) in Hp; done.
  - intros title csv e st raw Hrd Hp. unfold worker_visit.
    rewrite Hrd, Hp. by destruct (title_match title e).
  - intros. by eapply search_by_title_and_update_returns.
Qed.
End WorkerClaims.

(** ** The round trip through the index *)

Lemma kw_visit_keeps_lines keyword exact csv e st line :
  line ∈ kw_lines st ->
  line ∈ kw_lines (snd (kw_visit keyword exact csv e st)).
Proof.
  intros Hin. unfold kw_visit. destruct (kw_match keyword exact e); [|done].
  assert (line ∈ match fgets_at 4096 csv (csv_offset e) with
                 | Some l => kw_lines st ++ [c_str l]
                 | None => kw_lines st
                 end)
    by (destruct (fgets_at 4096 csv (csv_offset e)); [apply elem_of_app|]; auto).
  by destruct (50 <=? kw_found st + 1).
Qed.

Lemma kw_visit_all_keeps_lines keyword exact csv es st line :
  line ∈ kw_lines st ->
  line ∈ kw_lines
    (snd (visit_all (fun _ => true) (kw_visit keyword exact csv) es st)).
Proof.
  revert st; induction es as [|e es IH]; intros st Hin; simpl; [done|].
  pose proof (kw_visit_keeps_lines keyword exact csv e st line Hin) as Hkeep.
  destruct (kw_visit keyword exact csv e st) as [[] st1]; [by apply IH | done].
Qed.

(** A matching entry of the window has its line printed, unless the walk
    ends at the cap. *)
Lemma kw_visit_all_finds keyword exact csv es st e line :
  e ∈ es ->
  kw_match keyword exact e = true ->
  fgets_at 4096 csv (csv_offset e) = Some line ->
  kw_found st < 50 ->
  let out := snd (visit_all (fun _ => true) (kw_visit keyword exact csv) es st) in
  c_str line ∈ kw_lines out \/ kw_found out = 50.
Proof.
  revert st; induction es as [|e' es IH]; intros st Hin Hm Hrd Hlt;
    [by apply elem_of_nil in Hin|].
  simpl. destruct (kw_visit keyword exact csv e' st) as [c st1] eqn:Hv.
  assert (Hst1 : (c = Continue /\ kw_found st1 < 50) \/
                 (c = Finish /\ kw_found st1 = 50)).
  { revert Hv. unfold kw_visit. destruct (kw_match keyword exact e').
    - destruct (Z.leb_spec 50 (kw_found st + 1)); intros [= <- <-]; simpl;
        [right | left]; split; auto; lia.
    - intros [= <- <-]. by left. }
  apply elem_of_cons in Hin as [<-|Hin].
  - left.
    assert (Hthere : c_str line ∈ kw_lines st1).
    { revert Hv. unfold kw_visit. rewrite Hm, Hrd.
      destruct (50 <=? kw_found st + 1); intros [= <- <-]; simpl;
        apply elem_of_app; right; by apply list_elem_of_singleton. }
    destruct c; [by apply kw_visit_all_keeps_lines | done].
  - destruct Hst1 as [[-> Hlt1]|[-> Hcap]]; [by apply IH | by right].
Qed.

Section RoundTrip.
Context {H : Hasher}.

(** C1, as the code has it: after a build on which no stdio call failed,
    take a data line with a key token whose cleaned key is at most 255
    bytes long. An exact search for that key returns, and either it
    prints the line as [fgets] read it, or it stops at the cap with 50
    matches counted. *)
Theorem exact_search_round_trip fuel data img off line token :
  build_index (Some data) io_ok = (0, Some img) ->
  (off, line) ∈ csv_records data ->
  key_token 3 (c_str line) = Some token ->
  strlen (limpiar_texto token) <= 255 ->
  (length (img_entries img) < fuel)%nat ->
  exists out,
    search_by_keyword fuel (Some (limpiar_texto token)) true
                      (Some (image_file img)) (Some data) io_ok
    = Some (KwFin out) /\
    (c_str line ∈ kw_lines out \/ kw_found out = 50).
Proof.
  intros Hb Hline Htok Hshort Hfuel.
  set (k := limpiar_texto token).
  set (h := Z.of_N (hash_string k) mod N_BUCKETS).
  assert (Hh : 0 <= h < N_BUCKETS) by (apply Z.mod_pos_bound; done).
  pose proof (build_index_chains_ok _ _ _ Hb) as (Hlen & _ & Hch).
  destruct (img_buckets img !! Z.to_nat h) as [b|] eqn:Hbucket.
  2:{ apply lookup_ge_None in Hbucket. rewrite Hlen in Hbucket. lia. }
  destruct (Hch _ _ Hbucket) as (l & Hl & Hll & _ & Hall).
  destruct (Hall (fun _ _ _ => eq_refl) off line token Hline Htok)
    as (e & He & Hkey & Hoff); [by rewrite Z2Nat.id by lia|].
  assert (Hw : window (image_file img) N_BUCKETS h
                      (length (img_entries img)) (offsets 0 0) (l ++ [])).
  { apply window_chain with b; [lia | | by apply linked_is_chain | done
                                | constructor].
    simpl. rewrite Z.add_0_r, image_read_bucket_slot by lia. done. }
  unfold search_by_keyword, kw_scan. fold k. fold h.
  rewrite (scan_buckets_window _ _ _ fuel _ _ _ _ _ _ Hw) by done.
  eexists. split; [done|]. rewrite app_nil_r.
  apply kw_visit_all_finds with e; simpl; [done | | | lia].
  - unfold kw_match. rewrite Hkey, take_ge by (unfold strlen in Hshort; lia).
    by rewrite strcasecmp_refl.
  - rewrite Hoff. by apply csv_records_read_back.
Qed.
End RoundTrip.

(** ** Concrete runs *)

(** Closed statements about concrete runs are settled by evaluation. *)
Ltac evaluate := repeat apply conj; vm_compute; reflexivity.

(** *** The builder on the sample record store *)

Lemma sample_index_built :
  build_index (H := djb2) (Some sample_csv) io_ok = (0, Some sample_index).
Proof. vm_compute. reflexivity. Qed.

(** The four data lines of the sample record store, with their offsets. *)
Lemma sample_records :
  csv_records sample_csv =
  [(96, sample_line_1); (165, sample_line_2); (233, sample_line_3);
   (241, sample_line_4)].
Proof. vm_compute. reflexivity. Qed.

(** C1, the claim as stated fails: a data line whose key is 256 bytes long
    is indexed under its first 255 bytes, and the exact search for its key
    finds nothing. *)
Lemma round_trip_fails_on_long_key :
  build_index (H := djb2) (Some long_key_csv) io_ok
  = (0, Some long_key_index) /\
  csv_records long_key_csv = [(15, long_key_line)] /\
  key_token 3 (c_str long_key_line) = Some long_key /\
  limpiar_texto long_key = long_key /\
  search_by_keyword (H := djb2) 10 (Some long_key) true
                    (Some (image_file long_key_index)) (Some long_key_csv)
                    io_ok
  = Some (KwFin {| kw_found := 0; kw_lines := [] |}).
Proof. evaluate. Qed.

(** The round trip for line 1 of the sample record store. *)
Lemma exact_search_round_trip_witness :
  exists out,
    search_by_keyword (H := djb2) 10
      (Some (limpiar_texto (str "Deep Learning Basics"))) true
      (Some (image_file sample_index)) (Some sample_csv) io_ok
    = Some (KwFin out) /\
    (c_str sample_line_1 ∈ kw_lines out \/ kw_found out = 50).
Proof.
  apply (exact_search_round_trip (H := djb2) 10 sample_csv sample_index 96
           sample_line_1 (str "Deep Learning Basics")).
  - exact sample_index_built.
  - rewrite sample_records. apply list_elem_of_here.
  - vm_compute. reflexivity.
  - vm_compute. discriminate.
  - vm_compute. lia.
Defined.

(** C5, the claim as stated fails: the entry written for the 256-byte key
    is reachable from bucket 901, to which the key hashes, while the key
    it stores hashes to bucket 20. *)
Lemma stored_key_hashes_elsewhere :
  let e := {| key := take 255 long_key; csv_offset := 15;
              next_entry := -1 |} in
  build_index (H := djb2) (Some long_key_csv) io_ok
  = (0, Some long_key_index) /\
  read_bucket (image_file long_key_index) (bucket_offset_of 901)
  = Some {| first_entry_offset := 8024 |} /\
  reachable (read_entry (image_file long_key_index)) 8024 e /\
  Z.of_N (djb2 (key e)) mod N_BUCKETS = 20.
Proof.
  split; [vm_compute; reflexivity|].
  split; [vm_compute; reflexivity|].
  split; [|vm_compute; reflexivity].
  apply reach_here; [lia | vm_compute; reflexivity].
Qed.

(** Bucket 344 of the sample index: its head entry was written for line
    4, whose key hashes to 344. *)
Lemma bucket_containment_witness :
  exists off line token,
    (off, line) ∈ csv_records sample_csv /\
    key_token 3 (c_str line) = Some token /\
    key {| key := str "Deep Learning Basics"; csv_offset := 241;
           next_entry := 8024 |} = take 255 (limpiar_texto token) /\
    csv_offset {| key := str "Deep Learning Basics"; csv_offset := 241;
                  next_entry := 8024 |} = off /\
    Z.of_N (djb2 (limpiar_texto token)) mod N_BUCKETS = 344 /\
    (strlen (limpiar_texto token) <= 255 ->
     Z.of_N (djb2 (key {| key := str "Deep Learning Basics";
                          csv_offset := 241; next_entry := 8024 |}))
     mod N_BUCKETS = 344).
Proof.
  apply (bucket_containment (H := djb2) sample_csv io_ok sample_index 344
           {| first_entry_offset := 8568 |}).
  - exact sample_index_built.
  - vm_compute. reflexivity.
  - apply reach_here; [simpl; lia | vm_compute; reflexivity].
Defined.



(** C8, the claim as stated fails for a failed read: when the read of the
    bucket slot fails on the line at offset 241, the build succeeds and
    the line is not skipped. Its entry is the head of bucket 344, with no
    successor: the entry of [sample_line_1] is no longer linked. *)
Lemma failed_read_inserts_the_line :
  build_index (H := djb2) (Some sample_csv) (io_read_fails_at 241)
  = (0, Some read_failure_index) /\
  line_io (io_read_fails_at 241) 241 = read_fails /\
  read_bucket (image_file read_failure_index) (bucket_offset_of 344)
  = Some {| first_entry_offset := 8568 |} /\
  read_entry (image_file read_failure_index) 8568
  = Some {| key := str "Deep Learning Basics"; csv_offset := 241;
            next_entry := -1 |}.
Proof. evaluate. Qed.

(** An empty record store makes the build fail; a line without a key
    token leaves the bucket table of the sample index as it is. *)
Lemma build_failure_status_witness :
  fst (build_index (H := djb2) (Some []) io_ok) = -1 /\
  img_buckets (index_line (H := djb2) line_ok 233 sample_line_3 sample_index)
  = img_buckets sample_index.
Proof.
  destruct (build_failure_status (H := djb2) (Some []) io_ok)
    as (Hfail & _ & _ & Hskip & _).
  split.
  - apply Hfail. unfold build_fatal. tauto.
  - apply Hskip. left. vm_compute. reflexivity.
Defined.

(** *** The readers on the sample record store *)

Lemma sample_keyword_run :
  search_by_keyword (H := djb2) 10 (Some (str "Deep Learning Basics")) false
                    None (Some sample_csv) io_ok
  = Some (KwFin sample_out).
Proof. evaluate. Qed.

(** The two results of that search are within the cap. *)
Lemma result_cap_witness :
  0 <= kw_found sample_out <= 50 /\
  Z.of_nat (length (kw_lines sample_out)) <= kw_found sample_out.
Proof.
  destruct (result_cap (H := djb2) 10) as (Hkw & _).
  exact (Hkw _ _ _ _ _ _ sample_keyword_run).
Defined.

(** The worker with the update_date of line 1: line 4 has the same title
    and another date. *)
Lemma sample_filtered_run :
  search_by_title_and_update (H := djb2) 10
    (Some (str "Deep Learning Basics")) (Some (str "2020-01-01")) 2048
    None (Some sample_csv) io_ok
  = Some (1, sample_2020).
Proof. evaluate. Qed.

(** The one line returned has the date asked for, and is counted once. *)
Lemma update_filter_witness :
  Forall (fun line =>
            fst (csv_get_column line 12 64) = 1 /\
            strcasecmp (snd (csv_get_column line 12 64)) (str "2020-01-01")
            = 0)
         (appended sample_2020) /\
  found sample_2020 = Z.of_nat (length (appended sample_2020)).
Proof.
  destruct (update_filter (H := djb2) 10 (Some (str "Deep Learning Basics"))
              (str "2020-01-01") 2048) as (Hres & _); [discriminate|].
  destruct (Hres _ _ _ _ _ sample_filtered_run) as (Hall & Hcount & _).
  exact (conj Hall Hcount).
Defined.

(** The index file built from the three wide records. *)
Lemma wide_index_built :
  build_index (H := djb2) (Some wide_csv) io_ok = (0, Some wide_index).
Proof. evaluate. Qed.

(** The worker on the wide records: two lines fill 1824 of 2048 bytes. *)
Lemma wide_run :
  search_by_title_and_update (H := djb2) 10 (Some (str "deep")) None 2048
    (Some (image_file wide_index)) (Some wide_csv) io_ok
  = Some (2, wide_results).
Proof. evaluate. Qed.

(** All three wide records are accepted, the newest first. *)
Lemma wide_accepted :
  omap (accepted_line (str "deep") None wide_csv)
       (rev (img_entries wide_index))
  = [wide_line (str "3"); wide_line (str "2"); wide_line (str "1")].
Proof. evaluate. Qed.

(** The buffer on the wide records: the count returned is the number of
    lines appended, they fit, and the search stopped with a line left. *)
Lemma response_buffer_witness :
  ((2 = -1 \/ 2 = Z.of_nat (length (appended wide_results))) /\
   used wide_results = strlen (resp_buf wide_results) /\
   strlen (resp_buf wide_results) + 1 <= 2048) /\
  exists es st rest,
    search_by_title_and_update (H := djb2) 10 (Some (str "deep")) None 2048
      (Some (image_file wide_index)) (Some wide_csv) io_ok
    = Some (found st, st) /\
    omap (accepted_line (str "deep") None wide_csv) es
    = appended st ++ rest /\
    found st = Z.of_nat (length (appended st)) /\
    (found st = MAX_RESULTS \/ rest = [] \/
     exists line rest', rest = line :: rest' /\
                        2048 <= used st + strlen line + 1).
Proof.
  destruct (response_buffer (H := djb2) 10 (Some (str "deep")) None 2048)
    as (Hbound & Hstop & Hwin & _); [lia|].
  split; [exact (Hbound _ _ _ _ _ wide_run)|].
  destruct (Hwin wide_csv io_ok wide_index
              (worker_buckets (img_header wide_index))
              (Z.of_N (djb2 (str "deep"))
               mod worker_buckets (img_header wide_index))
              (offsets (- BUCKET_RANGE) BUCKET_RANGE) wide_index_built)
    as [es Hes].
  destruct (Hstop (str "deep") (image_file wide_index) (img_header wide_index)
              wide_csv io_ok _ es eq_refl eq_refl Hes)
    as (st & rest & Hrun); [vm_compute; lia|].
  exists es, st, rest. exact Hrun.
Defined.


(** C2, the builder against the claim: the key the builder takes from a
    line is its fourth non-empty run of bytes between commas, whatever
    the quotes, and not the fourth column as [csv_get_column] reads it.
    A quoted field with a comma shifts the key by one field, doubled
    quotes stay doubled, and an empty field before the key shifts it the
    other way. *)
Theorem builder_key_is_not_column_4 :
  builder_key quoted_authors_line = Some (str "math.CO") /\
  csv_get_column (c_str quoted_authors_line) 4 256
  = (1, str "Graph Theory") /\
  builder_key doubled_quotes_line
  = Some (str "say " ++ [DQ; DQ] ++ str "hi" ++ [DQ; DQ]) /\
  csv_get_column (c_str doubled_quotes_line) 4 256
  = (1, str "say " ++ [DQ] ++ str "hi" ++ [DQ]) /\
  builder_key empty_field_line = Some (str "2007-05-23") /\
  csv_get_column (c_str empty_field_line) 4 256 = (1, str "Graph Theory").
Proof. evaluate. Qed.

